(** * snp-dists: pairwise SNP distance matrix from a FASTA alignment

    Shallow embedding of [main.c]: the resolution table filled by
    [init_table], the per-pair kernel [distance], and the part of [main]
    that loads the records, normalises them and prints the matrix.

    Conventions of the embedding:
    - a C [char] is an [ascii] (an 8-bit code unit); the cast
      [(unsigned char)c] used to index the table is [nat_of_ascii c];
    - a [char*] buffer is a [list ascii], read with [l !! i]; a read
      outside the buffer has no defined result and is [None];
    - [int table[256][256]] is a list of rows, each a list of [Z];
    - [size_t] is a 64-bit unsigned integer: a [Z] reduced modulo [2^64]
      after each addition. *)

From Stdlib Require Import ZArith Ascii String List Lia Bool.
From stdpp Require Import base option list.

Open Scope Z_scope.

(** ** Symbols and constants *)

Definition char := ascii.

Bind Scope char_scope with char.

Definition MAX_SEQ : Z := 100000.
Definition IGNORE_CHAR : char := "."%char.

Definition EXIT_FAILURE : Z := 1.

(** [(unsigned char)c], as an array index. *)
Definition uchar (c : char) : nat := nat_of_ascii c.

(** [size_t] arithmetic. *)
Definition SIZE_MAX : Z := 2 ^ 64 - 1.
Definition size_t_wrap (z : Z) : Z := z mod 2 ^ 64.

(** ** The resolution table *)

Definition table_t := list (list Z).

(** [static int table[256][256] = {0};] *)
Definition zero_table : table_t := replicate 256 (replicate 256 0).

(** [t[x][y]] as an rvalue. *)
Definition tget (t : table_t) (x y : char) : Z :=
  (t !!! uchar x) !!! uchar y.

(** [t[x][y] = v;] *)
Definition tset (t : table_t) (x y : char) (v : Z) : table_t :=
  alter (fun row => <[uchar y := v]> row) (uchar x) t.

Definition init_table (t : table_t) : table_t :=
  let t := tset t "A" "C" 1 in
  let t := tset t "A" "G" 1 in
  let t := tset t "A" "T" 1 in
  let t := tset t "C" "A" 1 in
  let t := tset t "C" "G" 1 in
  let t := tset t "C" "T" 1 in
  let t := tset t "G" "A" 1 in
  let t := tset t "G" "C" 1 in
  let t := tset t "G" "T" 1 in
  let t := tset t "T" "A" 1 in
  let t := tset t "T" "C" 1 in
  let t := tset t "T" "G" 1 in
  (* table['W']['T'] = table['T']['W'] = 1; *)
  let t := tset t "T" "W" 1 in
  let t := tset t "W" "T" (tget t "T" "W") in
  t.

(** The table as [main] uses it: the zero-initialised static array after
    the call of [init_table] on entry. *)
Definition table : table_t := init_table zero_table.

(** ** The distance kernel *)

(** The guard of the loop body. *)
Definition counted (x y : char) : bool :=
  negb (Ascii.eqb x y) && negb (Ascii.eqb x IGNORE_CHAR)
    && negb (Ascii.eqb y IGNORE_CHAR).

(** One execution of the loop body on [a[i] = x], [b[i] = y]. *)
Definition distance_step (t : table_t) (x y : char) (diff : Z) : Z :=
  if counted x y then size_t_wrap (diff + tget t x y) else diff.

(** The loop from index [i] with [n] iterations left. *)
Fixpoint distance_loop (t : table_t) (a b : list char)
    (i n : nat) (diff : Z) : option Z :=
  match n with
  | O => Some diff
  | S n' =>
      match a !! i, b !! i with
      | Some x, Some y =>
          distance_loop t a b (S i) n' (distance_step t x y diff)
      | _, _ => None
      end
  end.

Definition distance (t : table_t) (a b : list char) (L : nat) : option Z :=
  distance_loop t a b 0 L 0.

(** ** The program: loading, normalisation, printing *)

(** The flags set by the option loop of [main]. *)
Record options := {
  quiet : bool;
  csv : bool;
  corner : bool;
  allchars : bool;
  keepcase : bool
}.

(** What one successful [kseq_read] leaves in [kseq->name.s] and
    [kseq->seq.s]; its return value is the length of the sequence. *)
Record kseq_t := { kname : list char; kseq : list char }.

Definition kseq_len (k : kseq_t) : Z := Z.of_nat (length (kseq k)).

Definition NUL : char := zero.

(** The characters of a C string: those before the first NUL. *)
Fixpoint c_str (s : list char) : list char :=
  match s with
  | [] => []
  | c :: s' => if Ascii.eqb c NUL then [] else c :: c_str s'
  end.

(** [toupper] in the C locale. *)
Definition toupper (c : char) : char :=
  let n := nat_of_ascii c in
  if ((97 <=? n) && (n <=? 122))%nat then ascii_of_nat (n - 32) else c.

(** The body of the cleaning loop under [!allchars]. *)
Definition clean (c : char) : char :=
  if negb (Ascii.eqb c "A") && negb (Ascii.eqb c "T")
       && negb (Ascii.eqb c "C") && negb (Ascii.eqb c "G")
  then IGNORE_CHAR else c.

(** Both in-place loops run over the C string, up to its terminator. *)
Definition normalize (o : options) (s : list char) : list char :=
  let s := if keepcase o then s else toupper <$> s in
  if allchars o then s else clean <$> s.

(** Bytes [0 .. l-1] of the buffer [seq[N]] once the record is stored:
    [calloc(l + 1)] zeroes it, [strcpy] writes the C string, the two
    loops rewrite the C string in place.  Byte [l] is the terminator. *)
Definition store_seq (o : options) (s : list char) : list char :=
  let p := c_str s in
  normalize o p ++ replicate (length s - length p) NUL.

(** [name[N]] as [printf("%s")] shows it. *)
Definition store_name (s : list char) : list char := c_str s.

(** Messages on the diagnostic stream. *)
Inductive diag :=
| Usage
| Hello
| ErrOpen (fasta : list char)
| ErrLength (n : Z) (nm : list char) (l L : Z)
| ErrTooMany (max : Z)
| ErrEmpty
| ReadInfo (N L : Z)
| InvalidOption (c : char).

(** The variables of the loading loop. *)
Record load_state := {
  st_seq : list (list char);
  st_name : list (list char);
  st_N : Z;
  st_L : Z
}.

Definition load_init : load_state :=
  {| st_seq := []; st_name := []; st_N := 0; st_L := -1 |}.

(** One iteration of [while ((l = kseq_read(kseq)) >= 0)]; [inr] is a
    call of [exit(EXIT_FAILURE)] after the given message. *)
Definition load_step (o : options) (st : load_state) (k : kseq_t)
    : load_state + diag :=
  let l := kseq_len k in
  let L := if st_L st <? 0 then l else st_L st in
  if negb (l =? L) then inr (ErrLength (st_N st + 1) (c_str (kname k)) l L)
  else if MAX_SEQ <=? st_N st then inr (ErrTooMany MAX_SEQ)
  else inl {| st_seq := st_seq st ++ [store_seq o (kseq k)];
              st_name := st_name st ++ [store_name (kname k)];
              st_N := st_N st + 1;
              st_L := L |}.

(** The loop over the records the reader delivers before it reports the
    end of the input. *)
Fixpoint load (o : options) (ks : list kseq_t) (st : load_state)
    : load_state + diag :=
  match ks with
  | [] => inl st
  | k :: ks' =>
      match load_step o st k with
      | inl st' => load o ks' st'
      | inr e => inr e
      end
  end.

(** Standard output, one item per conversion or literal of a [printf]. *)
Inductive token :=
| Str (s : list char)
| Chr (c : char)
| Num (d : Z).

Definition EXENAME : list char := list_ascii_of_string "snp-dists"%string.
Definition VERSION : list char := list_ascii_of_string "0.6.3"%string.
Definition newline : char := "010"%char.
Definition tab : char := "009"%char.

Definition sep (o : options) : char := if csv o then ","%char else tab.

(** The header line. *)
Definition print_header (o : options) (st : load_state)
    : option (list token) :=
  cols ← mapM (fun j => nj ← st_name st !! j; Some [Chr (sep o); Str nj])
              (seq 0 (Z.to_nat (st_N st)));
  Some ((if corner o then [Str EXENAME; Chr " "%char; Str VERSION] else [])
          ++ concat cols ++ [Chr newline]).

(** The inner loop of the matrix output, for row [j]. *)
Definition print_cells (t : table_t) (o : options) (st : load_state)
    (j : nat) : option (list token) :=
  cells ← mapM (fun i =>
                  sj ← st_seq st !! j;
                  si ← st_seq st !! i;
                  d ← distance t sj si (Z.to_nat (st_L st));
                  Some [Chr (sep o); Num d])
               (seq 0 (Z.to_nat (st_N st)));
  Some (concat cells).

(** The outer loop. *)
Definition print_matrix (t : table_t) (o : options) (st : load_state)
    : option (list token) :=
  rows ← mapM (fun j =>
                 nj ← st_name st !! j;
                 cells ← print_cells t o st j;
                 Some (Str nj :: cells ++ [Chr newline]))
              (seq 0 (Z.to_nat (st_N st)));
  Some (concat rows).

(** What a run leaves behind. *)
Record result := {
  status : Z;
  stdout : list token;
  stderr : list diag
}.

Definition say (o : options) (d : diag) : list diag :=
  if quiet o then [] else [d].

(** [main] from the check of the file name argument on, with the table
    [t] in the static array.  [operands] is [argv] from [optind];
    [gzopen] gives the records of a file that can be opened.  [None] is
    a run that reads outside a buffer. *)
Definition main_from (t : table_t) (o : options)
    (operands : list (list char))
    (gzopen : list char → option (list kseq_t)) : option result :=
  match operands with
  | [] => Some {| status := EXIT_FAILURE; stdout := []; stderr := [Usage] |}
  | fasta :: _ =>
      match gzopen fasta with
      | None =>
          Some {| status := EXIT_FAILURE; stdout := [];
                  stderr := say o Hello ++ [ErrOpen fasta] |}
      | Some ks =>
          match load o ks load_init with
          | inr e =>
              Some {| status := EXIT_FAILURE; stdout := [];
                      stderr := say o Hello ++ [e] |}
          | inl st =>
              if st_N st <? 1 then
                Some {| status := EXIT_FAILURE; stdout := [];
                        stderr := say o Hello ++ [ErrEmpty] |}
              else
                hd ← print_header o st;
                rows ← print_matrix t o st;
                Some {| status := 0; stdout := hd ++ rows;
                        stderr := say o Hello
                                    ++ say o (ReadInfo (st_N st) (st_L st)) |}
          end
      end
  end.

(** [main]: [init_table()] on the static array, then the rest. *)
Definition main (o : options) (operands : list (list char))
    (gzopen : list char → option (list kseq_t)) : option result :=
  main_from (init_table zero_table) o operands gzopen.

(** ** Reference definitions for the statements *)

(** The contribution of one position as the description words it: zero
    for equal symbols, zero when either is the ignore sentinel, the
    table entry otherwise. *)
Definition contribution (t : table_t) (x y : char) : Z :=
  if Ascii.eqb x y then 0
  else if Ascii.eqb x IGNORE_CHAR || Ascii.eqb y IGNORE_CHAR then 0
  else tget t x y.

(** The sum of the contributions over the positions of two sequences. *)
Fixpoint position_sum (t : table_t) (a b : list char) : Z :=
  match a, b with
  | x :: a', y :: b' => contribution t x y + position_sum t a' b'
  | _, _ => 0
  end.

(** A C string literal as a buffer. *)
Definition lit (s : string) : list char := list_ascii_of_string s.

Arguments lit s%_string_scope.

(** The definite bases. *)
Definition definite (c : char) : bool :=
  Ascii.eqb c "A" || Ascii.eqb c "C" || Ascii.eqb c "G" || Ascii.eqb c "T".

(** The bases an upper-case nucleotide code stands for, after the IUPAC
    nomenclature the description refers to ([N] any base, [R] = A or G,
    [W] = A or T); a symbol outside that alphabet stands for none. *)
Definition possible_bases (c : char) : list char :=
  if Ascii.eqb c "A" then lit "A" else if Ascii.eqb c "C" then lit "C"
  else if Ascii.eqb c "G" then lit "G" else if Ascii.eqb c "T" then lit "T"
  else if Ascii.eqb c "R" then lit "AG" else if Ascii.eqb c "Y" then lit "CT"
  else if Ascii.eqb c "S" then lit "CG" else if Ascii.eqb c "W" then lit "AT"
  else if Ascii.eqb c "K" then lit "GT" else if Ascii.eqb c "M" then lit "AC"
  else if Ascii.eqb c "B" then lit "CGT" else if Ascii.eqb c "D" then lit "AGT"
  else if Ascii.eqb c "H" then lit "ACT" else if Ascii.eqb c "V" then lit "ACG"
  else if Ascii.eqb c "N" then lit "ACGT" else [].

Definition share_base (x y : char) : bool :=
  existsb (fun c => existsb (Ascii.eqb c) (possible_bases y))
          (possible_bases x).

(** Both symbols are nucleotide codes and no base is common to them. *)
Definition disjoint_bases (x y : char) : bool :=
  match possible_bases x, possible_bases y with
  | _ :: _, _ :: _ => negb (share_base x y)
  | _, _ => false
  end.

Definition undetermined (c : char) : bool := Ascii.eqb c "N".

(** The unordered pair W/T. *)
Definition pair_WT (x y : char) : bool :=
  (Ascii.eqb x "W" && Ascii.eqb y "T") || (Ascii.eqb x "T" && Ascii.eqb y "W").

(** The cells [init_table] writes. *)
Definition populated (x y : char) : bool :=
  (definite x && definite y && negb (Ascii.eqb x y)) || pair_WT x y.

(** The records of an alignment [main] accepts: at least one, at most
    [MAX_SEQ], each as long as the first. *)
Definition same_length (ks : list kseq_t) : bool :=
  match ks with
  | [] => true
  | k0 :: ks' => forallb (fun k => kseq_len k =? kseq_len k0) ks'
  end.

Definition alignment (ks : list kseq_t) : bool :=
  (1 <=? Z.of_nat (length ks)) && (Z.of_nat (length ks) <=? MAX_SEQ)
    && same_length ks.

(** The text [main] prints for the names and a matrix. *)
Definition header_line (o : options) (names : list (list char))
    : list token :=
  (if corner o then [Str EXENAME; Chr " "%char; Str VERSION] else [])
    ++ concat ((fun nj => [Chr (sep o); Str nj]) <$> names)
    ++ [Chr newline].

Definition row_line (o : options) (nj : list char) (row : list Z)
    : list token :=
  Str nj :: concat ((fun d => [Chr (sep o); Num d]) <$> row)
    ++ [Chr newline].

Definition render (o : options) (names : list (list char))
    (m : list (list Z)) : list token :=
  header_line o names ++ concat (zip_with (row_line o) names m).

(** The fold the loop of [distance] performs over paired positions. *)
Definition distance_fold (t : table_t) (a b : list char) : Z :=
  fold_left (fun diff p => distance_step t p.1 p.2 diff) (zip a b) 0.

(** The matrix of a list of stored sequences, row by row. *)
Definition matrix_of (t : table_t) (seqs : list (list char))
    : list (list Z) :=
  (fun sj => distance_fold t sj <$> seqs) <$> seqs.

(** The buffers and names [main] holds once the records are loaded. *)
Definition stored_seqs (o : options) (ks : list kseq_t) : list (list char) :=
  (fun k => store_seq o (kseq k)) <$> ks.

Definition stored_names (ks : list kseq_t) : list (list char) :=
  (fun k => store_name (kname k)) <$> ks.

(** Entry [(i, j)] of a matrix. *)
Definition entry (m : list (list Z)) (i j : nat) : option Z :=
  row ← m !! i; row !! j.

(** ** Sample inputs *)

Definition flags (k a : bool) : options :=
  {| quiet := false; csv := false; corner := true;
     allchars := a; keepcase := k |}.

Definition record (n s : string) : kseq_t :=
  {| kname := lit n; kseq := lit s |}.

Arguments record (n s)%_string_scope.

Definition three_records : list kseq_t :=
  [record "S1" "ACGT"; record "S2" "ACGA"; record "S3" "NNNN"].

Definition two_cases : list kseq_t :=
  [record "S1" "acgt"; record "S2" "ACGT"].

Definition ragged : list kseq_t :=
  [record "S1" "ACGT"; record "S2" "ACG"].

Definition crowd : list kseq_t :=
  replicate (Z.to_nat (MAX_SEQ + 1)) (record "S" "A").

(** A file system holding one readable file. *)
Definition holding (ks : list kseq_t) : list char → option (list kseq_t) :=
  fun _ => Some ks.

Definition unreadable : list char → option (list kseq_t) := fun _ => None.

Definition three_loaded : load_state :=
  {| st_seq := stored_seqs (flags false false) three_records;
     st_name := stored_names three_records;
     st_N := 3;
     st_L := 4 |}.

(** The conditions under which [main] gives up. *)
Inductive rejected (operands : list (list char))
    (gzopen : list char → option (list kseq_t)) : Prop :=
| no_argument :
    operands = [] → rejected operands gzopen
| open_failure fasta rest :
    operands = fasta :: rest → gzopen fasta = None →
    rejected operands gzopen
| no_sequences fasta rest :
    operands = fasta :: rest → gzopen fasta = Some [] →
    rejected operands gzopen
| length_mismatch fasta rest ks :
    operands = fasta :: rest → gzopen fasta = Some ks →
    same_length ks = false →
    rejected operands gzopen
| too_many fasta rest ks :
    operands = fasta :: rest → gzopen fasta = Some ks →
    MAX_SEQ < Z.of_nat (length ks) →
    rejected operands gzopen.

(** ** The option loop and the help *)

Definition EXIT_SUCCESS : Z := 0.

Definition GITHUB_URL : list char :=
  lit "https://github.com/tseemann/snp-dists".

(** The format string of [show_help], cut at its two [%s]. *)
Definition help_head : list char :=
  lit "SYNOPSIS" ++ [newline]
    ++ lit "  Pairwise SNP distance matrix from a FASTA alignment"
    ++ [newline]
    ++ lit "USAGE" ++ [newline] ++ lit "  ".

Definition help_body : list char :=
  lit " [options] alignment.fasta[.gz] > matrix.tsv" ++ [newline]
    ++ lit "OPTIONS" ++ [newline]
    ++ lit "  -h" ++ [tab] ++ lit "Show this help" ++ [newline]
    ++ lit "  -v" ++ [tab] ++ lit "Print version and exit" ++ [newline]
    ++ lit "  -q" ++ [tab]
    ++ lit "Quiet mode; do not print progress information" ++ [newline]
    ++ lit "  -a" ++ [tab]
    ++ lit "Count all differences not just [AGTC]" ++ [newline]
    ++ lit "  -k" ++ [tab]
    ++ lit "Keep case, don't uppercase all letters" ++ [newline]
    ++ lit "  -c" ++ [tab] ++ lit "Output CSV instead of TSV" ++ [newline]
    ++ lit "  -b" ++ [tab] ++ lit "Blank top left corner cell" ++ [newline]
    ++ lit "URL" ++ [newline] ++ lit "  ".

Definition help_text : list token :=
  [Str help_head; Str EXENAME; Str help_body; Str GITHUB_URL; Chr newline].

(** [show_help]: the text goes to the standard output when [retcode] is
    [EXIT_SUCCESS] and to the diagnostic stream otherwise, where it is
    the message [Usage]; then [exit(retcode)]. *)
Definition show_help (retcode : Z) : result :=
  if retcode =? EXIT_SUCCESS
  then {| status := retcode; stdout := help_text; stderr := [] |}
  else {| status := retcode; stdout := []; stderr := [Usage] |}.

(** The initial values of the flags. *)
Definition default_options : options :=
  {| quiet := false; csv := false; corner := true;
     allchars := false; keepcase := false |}.

(** The [switch] on one value [getopt] returns; [inr] is a call of
    [exit]. *)
Definition option_step (o : options) (opt : char) : options + result :=
  if Ascii.eqb opt "h" then inr (show_help EXIT_SUCCESS)
  else if Ascii.eqb opt "q" then
    inl {| quiet := true; csv := csv o; corner := corner o;
           allchars := allchars o; keepcase := keepcase o |}
  else if Ascii.eqb opt "c" then
    inl {| quiet := quiet o; csv := true; corner := corner o;
           allchars := allchars o; keepcase := keepcase o |}
  else if Ascii.eqb opt "a" then
    inl {| quiet := quiet o; csv := csv o; corner := corner o;
           allchars := true; keepcase := keepcase o |}
  else if Ascii.eqb opt "k" then
    inl {| quiet := quiet o; csv := csv o; corner := corner o;
           allchars := allchars o; keepcase := true |}
  else if Ascii.eqb opt "b" then
    inl {| quiet := quiet o; csv := csv o; corner := false;
           allchars := allchars o; keepcase := keepcase o |}
  else if Ascii.eqb opt "v" then
    inr {| status := EXIT_SUCCESS;
           stdout := [Str EXENAME; Chr " "; Str VERSION; Chr newline];
           stderr := [] |}
  else inr (show_help EXIT_FAILURE).

(** The option string passed to [getopt]. *)
Definition OPTSTRING : list char := lit "hqcakbv".

(** One call of [getopt] on the option character [c] of the command
    line, with [opterr] left at 1: a character of the option string is
    returned; for any other the library writes its own message on the
    diagnostic stream and returns a question mark. *)
Definition getopt (c : char) : char * list diag :=
  if existsb (Ascii.eqb c) OPTSTRING then (c, [])
  else ("?"%char, [InvalidOption c]).

(** The loop over the option characters of the command line, until
    [getopt] returns -1. *)
Fixpoint option_loop (opts : list char) (o : options) : options + result :=
  match opts with
  | [] => inl o
  | c :: opts' =>
      let (opt, err) := getopt c in
      match option_step o opt with
      | inl o' => option_loop opts' o'
      | inr r =>
          inr {| status := status r; stdout := stdout r;
                 stderr := err ++ stderr r |}
      end
  end.

(** [main] from its entry: the option loop, then the rest. *)
Definition main_args (opts : list char) (operands : list (list char))
    (gzopen : list char → option (list kseq_t)) : option result :=
  match option_loop opts default_options with
  | inl o => main o operands gzopen
  | inr r => Some r
  end.

(** ** Further reference definitions *)

(** The letters of the five flags. *)
Definition flag_letter (c : char) : bool :=
  Ascii.eqb c "q" || Ascii.eqb c "c" || Ascii.eqb c "a"
    || Ascii.eqb c "k" || Ascii.eqb c "b".

(** The flags with [quiet] replaced. *)
Definition set_quiet (q : bool) (o : options) : options :=
  {| quiet := q; csv := csv o; corner := corner o;
     allchars := allchars o; keepcase := keepcase o |}.

(** The messages that report a failure. *)
Definition is_error (d : diag) : bool :=
  match d with
  | Hello | ReadInfo _ _ => false
  | _ => true
  end.

(** A table of 256 rows of 256 cells. *)
Definition wf_table (t : table_t) : Prop :=
  length t = 256%nat ∧ Forall (fun row => length row = 256%nat) t.

(** The number of positions at which two sequences hold a pair of
    symbols satisfying [p]. *)
Fixpoint count_pairs (p : char → char → bool) (a b : list char) : nat :=
  match a, b with
  | x :: a', y :: b' => (if p x y then 1 else 0) + count_pairs p a' b'
  | _, _ => 0
  end.

(** Two different definite bases. *)
Definition base_mismatch (x y : char) : bool :=
  definite x && definite y && negb (Ascii.eqb x y).

(** The same, letters compared without regard to case. *)
Definition base_mismatch_nocase (x y : char) : bool :=
  base_mismatch (toupper x) (toupper y).

(** The lower-case letters. *)
Definition is_lower (c : char) : bool :=
  let n := nat_of_ascii c in ((97 <=? n) && (n <=? 122))%nat.

(** The symbols the cleaning loop leaves. *)
Definition cleaned (c : char) : bool :=
  definite c || Ascii.eqb c IGNORE_CHAR.

(** Counting the items of the standard output. *)
Definition count_tokens (p : token → bool) (l : list token) : nat :=
  length (List.filter p l).

Definition is_newline (tk : token) : bool :=
  match tk with
  | Chr c => Ascii.eqb c newline
  | _ => false
  end.

Definition is_num (tk : token) : bool :=
  match tk with
  | Num _ => true
  | _ => false
  end.

(** The numbers on the standard output, in the order printed. *)
Fixpoint numbers (l : list token) : list Z :=
  match l with
  | [] => []
  | Num d :: l' => d :: numbers l'
  | _ :: l' => numbers l'
  end.

(** A record with its sequence in upper case. *)
Definition upcase (k : kseq_t) : kseq_t :=
  {| kname := kname k; kseq := toupper <$> kseq k |}.

(** More sample inputs. *)
Definition full_house : list kseq_t :=
  replicate (Z.to_nat MAX_SEQ) (record "S" "A").

(** ** Enumeration of the symbols *)

Definition all_chars : list char := map ascii_of_nat (seq 0 256).

Definition forall_chars2 (P : char → char → bool) : bool :=
  forallb (fun x => forallb (P x) all_chars) all_chars.

Lemma all_chars_complete (c : char) : In c all_chars.
Proof.
  unfold all_chars. rewrite <- (ascii_nat_embedding c).
  apply in_map, in_seq. pose proof (nat_ascii_bounded c). lia.
Qed.

Lemma forall_chars2_spec (P : char → char → bool) :
  forall_chars2 P = true → ∀ x y, P x y = true.
Proof.
  unfold forall_chars2. intros H x y.
  rewrite forallb_forall in H.
  specialize (H x (all_chars_complete x)).
  rewrite forallb_forall in H.
  exact (H y (all_chars_complete y)).
Qed.

Lemma forall_chars_spec (P : char → bool) :
  forallb P all_chars = true → ∀ c, P c = true.
Proof.
  intros H c. rewrite forallb_forall in H.
  exact (H c (all_chars_complete c)).
Qed.

(** ** The table after [init_table] *)

Lemma table_populated (x y : char) :
  tget table x y = if populated x y then 1 else 0.
Proof.
  apply Z.eqb_eq.
  revert x y. apply forall_chars2_spec. vm_compute. reflexivity.
Qed.

Lemma table_range (x y : char) : 0 <= tget table x y <= 1.
Proof. rewrite table_populated. destruct (populated x y); lia. Qed.

Lemma eqb_sym_char (x y : char) : Ascii.eqb x y = Ascii.eqb y x.
Proof.
  destruct (Ascii.eqb_spec x y) as [->|Hne].
  - symmetry. apply Ascii.eqb_refl.
  - symmetry. apply Ascii.eqb_neq. congruence.
Qed.

Lemma populated_sym (x y : char) : populated x y = populated y x.
Proof.
  unfold populated, pair_WT.
  rewrite (eqb_sym_char x y), (andb_comm (definite x)).
  f_equal. rewrite orb_comm. f_equal; apply andb_comm.
Qed.

Lemma table_symmetric (x y : char) : tget table x y = tget table y x.
Proof. now rewrite !table_populated, populated_sym. Qed.

(** ** The kernel, for any content of the table *)

Section Kernel.

Variable t : table_t.

Lemma counted_refl (x : char) : counted x x = false.
Proof. unfold counted. now rewrite Ascii.eqb_refl. Qed.

Lemma counted_sym (x y : char) : counted x y = counted y x.
Proof.
  unfold counted. rewrite (eqb_sym_char x y).
  destruct (Ascii.eqb y x), (Ascii.eqb x IGNORE_CHAR),
    (Ascii.eqb y IGNORE_CHAR); reflexivity.
Qed.

Lemma counted_ignore_l (y : char) : counted IGNORE_CHAR y = false.
Proof.
  unfold counted. rewrite (Ascii.eqb_refl IGNORE_CHAR).
  now rewrite andb_false_r.
Qed.

Lemma counted_ignore_r (x : char) : counted x IGNORE_CHAR = false.
Proof. now rewrite counted_sym, counted_ignore_l. Qed.

Lemma distance_step_refl (x : char) (diff : Z) :
  distance_step t x x diff = diff.
Proof. unfold distance_step. now rewrite counted_refl. Qed.

Lemma distance_step_ignore_l (y : char) (diff : Z) :
  distance_step t IGNORE_CHAR y diff = diff.
Proof. unfold distance_step. now rewrite counted_ignore_l. Qed.

Lemma distance_step_ignore_r (x : char) (diff : Z) :
  distance_step t x IGNORE_CHAR diff = diff.
Proof. unfold distance_step. now rewrite counted_ignore_r. Qed.

(** The loop does not look below its start index. *)
Lemma distance_loop_shift (x y : char) (a b : list char) (n i : nat)
      (diff : Z) :
  distance_loop t (x :: a) (y :: b) (S i) n diff
  = distance_loop t a b i n diff.
Proof.
  revert i diff. induction n as [|n IH]; intros i diff; simpl.
  - reflexivity.
  - destruct (a !! i) as [x'|]; [|reflexivity].
    destruct (b !! i) as [y'|]; [|reflexivity].
    apply IH.
Qed.

Lemma distance_loop_fold (a b : list char) (diff : Z) :
  length a = length b →
  distance_loop t a b 0 (length a) diff
  = Some (fold_left (fun d p => distance_step t p.1 p.2 d) (zip a b) diff).
Proof.
  revert b diff. induction a as [|x a IH]; intros [|y b] diff Hlen;
    simpl in Hlen; try discriminate; simpl.
  - reflexivity.
  - rewrite distance_loop_shift. apply IH. congruence.
Qed.

(** On buffers of [L] symbols the kernel returns, and returns the fold. *)
Lemma distance_defined (a b : list char) (L : nat) :
  length a = L → length b = L →
  distance t a b L = Some (distance_fold t a b).
Proof.
  intros Ha Hb. unfold distance, distance_fold. subst L.
  apply distance_loop_fold. congruence.
Qed.

Lemma fold_refl (s : list char) (diff : Z) :
  fold_left (fun d p => distance_step t p.1 p.2 d) (zip s s) diff = diff.
Proof.
  revert diff. induction s as [|x s IH]; intros diff; simpl.
  - reflexivity.
  - rewrite distance_step_refl. apply IH.
Qed.

Lemma distance_fold_refl (s : list char) : distance_fold t s s = 0.
Proof. apply fold_refl. Qed.

Section Symmetric.

Hypothesis t_sym : ∀ x y, tget t x y = tget t y x.

Lemma distance_step_sym (x y : char) (diff : Z) :
  distance_step t x y diff = distance_step t y x diff.
Proof. unfold distance_step. now rewrite counted_sym, t_sym. Qed.

Lemma distance_loop_sym (a b : list char) (n i : nat) (diff : Z) :
  distance_loop t a b i n diff = distance_loop t b a i n diff.
Proof.
  revert i diff. induction n as [|n IH]; intros i diff; simpl.
  - reflexivity.
  - destruct (a !! i) as [x|], (b !! i) as [y|]; try reflexivity.
    rewrite distance_step_sym. apply IH.
Qed.

Lemma distance_sym (a b : list char) (L : nat) :
  distance t a b L = distance t b a L.
Proof. apply distance_loop_sym. Qed.

End Symmetric.

(** *** Tables whose cells are 0 or 1 *)

Section Binary.

Hypothesis t_range : ∀ x y, 0 <= tget t x y <= 1.

Lemma contribution_range (x y : char) : 0 <= contribution t x y <= 1.
Proof.
  unfold contribution.
  destruct (Ascii.eqb x y); [lia|].
  destruct (_ || _); [lia|]. apply t_range.
Qed.

Lemma contribution_counted (x y : char) :
  contribution t x y = if counted x y then tget t x y else 0.
Proof.
  unfold contribution, counted.
  destruct (Ascii.eqb x y), (Ascii.eqb x IGNORE_CHAR),
    (Ascii.eqb y IGNORE_CHAR); reflexivity.
Qed.

Lemma position_sum_range (a b : list char) :
  0 <= position_sum t a b <= Z.of_nat (length a).
Proof.
  revert b. induction a as [|x a IH]; intros [|y b]; simpl; try lia.
  pose proof (contribution_range x y). specialize (IH b). lia.
Qed.

(** Without overflow the body adds the contribution. *)
Lemma distance_step_contribution (x y : char) (diff : Z) :
  0 <= diff → diff + 1 <= SIZE_MAX →
  distance_step t x y diff = diff + contribution t x y.
Proof.
  intros H0 H1. unfold distance_step. rewrite contribution_counted.
  destruct (counted x y); [|lia].
  unfold size_t_wrap. pose proof (t_range x y).
  unfold SIZE_MAX in H1. apply Z.mod_small. lia.
Qed.

Lemma fold_position_sum (a b : list char) (diff : Z) :
  0 <= diff → diff + Z.of_nat (length a) <= SIZE_MAX →
  fold_left (fun d p => distance_step t p.1 p.2 d) (zip a b) diff
  = diff + position_sum t a b.
Proof.
  revert b diff. induction a as [|x a IH]; intros [|y b] diff H0 H1;
    simpl; try lia.
  simpl length in H1.
  pose proof (contribution_range x y).
  rewrite distance_step_contribution by lia.
  rewrite IH by lia. lia.
Qed.

Lemma distance_fold_sum (a b : list char) :
  Z.of_nat (length a) <= SIZE_MAX →
  distance_fold t a b = position_sum t a b.
Proof.
  intros H. unfold distance_fold. now rewrite fold_position_sum by lia.
Qed.

(** With or without overflow the body adds at most one. *)
Lemma distance_step_bound (x y : char) (diff : Z) :
  0 <= diff → 0 <= distance_step t x y diff <= diff + 1.
Proof.
  intros H0. unfold distance_step, size_t_wrap.
  destruct (counted x y); [|lia].
  pose proof (t_range x y).
  pose proof (Z.mod_pos_bound (diff + tget t x y) (2 ^ 64) ltac:(lia)).
  pose proof (Z.mod_le (diff + tget t x y) (2 ^ 64) ltac:(lia) ltac:(lia)).
  lia.
Qed.

Lemma fold_bound (a b : list char) (diff : Z) :
  0 <= diff →
  0 <= fold_left (fun d p => distance_step t p.1 p.2 d) (zip a b) diff
    <= diff + Z.of_nat (length a).
Proof.
  revert b diff. induction a as [|x a IH]; intros [|y b] diff H0;
    simpl; try lia.
  pose proof (distance_step_bound x y diff H0).
  specialize (IH b (distance_step t x y diff) ltac:(lia)).
  simpl in IH. lia.
Qed.

Lemma distance_fold_bound (a b : list char) :
  0 <= distance_fold t a b <= Z.of_nat (length a).
Proof. apply (fold_bound a b 0). lia. Qed.

(** Writing the ignore sentinel into a sequence removes a contribution. *)
Lemma position_sum_ignore_l (a b : list char) (i : nat) :
  position_sum t (<[i := IGNORE_CHAR]> a) b <= position_sum t a b.
Proof.
  revert b i. induction a as [|x a IH]; intros [|y b] [|i]; simpl;
    try lia.
  - pose proof (contribution_range x y).
    rewrite (contribution_counted IGNORE_CHAR y), counted_ignore_l. lia.
  - specialize (IH b i). lia.
Qed.

Lemma position_sum_ignore_r (a b : list char) (i : nat) :
  position_sum t a (<[i := IGNORE_CHAR]> b) <= position_sum t a b.
Proof.
  revert b i. induction a as [|x a IH]; intros [|y b] [|i]; simpl;
    try lia.
  - pose proof (contribution_range x y).
    rewrite (contribution_counted x IGNORE_CHAR), counted_ignore_r. lia.
  - specialize (IH b i). lia.
Qed.

End Binary.

End Kernel.

(** ** Loading *)

Lemma c_str_length (s : list char) : (length (c_str s) <= length s)%nat.
Proof.
  induction s as [|c s IH]; simpl; [lia|].
  destruct (Ascii.eqb c NUL); simpl; lia.
Qed.

Lemma normalize_length (o : options) (s : list char) :
  length (normalize o s) = length s.
Proof.
  unfold normalize.
  destruct (keepcase o), (allchars o); now rewrite ?length_fmap.
Qed.

Lemma store_seq_length (o : options) (s : list char) :
  length (store_seq o s) = length s.
Proof.
  unfold store_seq.
  rewrite length_app, normalize_length, length_replicate.
  pose proof (c_str_length s). lia.
Qed.

Lemma c_str_id (s : list char) :
  Forall (fun c => c ≠ NUL) s → c_str s = s.
Proof.
  induction 1 as [|c s Hc _ IH]; simpl; [reflexivity|].
  apply Ascii.eqb_neq in Hc. now rewrite Hc, IH.
Qed.

Lemma store_seq_no_NUL (o : options) (s : list char) :
  Forall (fun c => c ≠ NUL) s → store_seq o s = normalize o s.
Proof.
  intros H. unfold store_seq. rewrite (c_str_id s H), Nat.sub_diag.
  simpl. apply app_nil_r.
Qed.

Lemma clean_lower (c : char) : is_lower c = true → clean c = IGNORE_CHAR.
Proof.
  intros H.
  assert (∀ c, implb (is_lower c) (Ascii.eqb (clean c) IGNORE_CHAR) = true)
    as Hall
    by (apply forall_chars_spec; vm_compute; reflexivity).
  specialize (Hall c). rewrite H in Hall. now apply Ascii.eqb_eq.
Qed.

(** Records of the expected length, within the capacity, are all kept. *)
Lemma load_same (o : options) (ks : list kseq_t) (st : load_state) :
  0 <= st_L st →
  forallb (fun k => kseq_len k =? st_L st) ks = true →
  st_N st + Z.of_nat (length ks) <= MAX_SEQ →
  load o ks st
  = inl {| st_seq := st_seq st ++ stored_seqs o ks;
           st_name := st_name st ++ stored_names ks;
           st_N := st_N st + Z.of_nat (length ks);
           st_L := st_L st |}.
Proof.
  revert st. induction ks as [|k ks IH]; intros st HL Hall HN.
  - simpl. rewrite !app_nil_r, Z.add_0_r. now destruct st.
  - simpl in Hall. apply andb_prop in Hall as [Hk Hall].
    simpl length in HN. simpl load. unfold load_step.
    destruct (Z.ltb_spec (st_L st) 0) as [?|_]; [lia|].
    rewrite Hk. simpl negb. cbv iota.
    destruct (Z.leb_spec MAX_SEQ (st_N st)) as [?|_]; [lia|].
    rewrite IH; simpl; try assumption; try lia.
    rewrite <- !app_assoc. simpl. do 2 f_equal. lia.
Qed.

Lemma load_alignment (o : options) (ks : list kseq_t) :
  alignment ks = true →
  ∃ L : nat,
    load o ks load_init
    = inl {| st_seq := stored_seqs o ks;
             st_name := stored_names ks;
             st_N := Z.of_nat (length ks);
             st_L := Z.of_nat L |}
    ∧ Forall (fun k => length (kseq k) = L) ks.
Proof.
  unfold alignment. intros H.
  apply andb_prop in H as [H Hsame]. apply andb_prop in H as [Hmin Hmax].
  apply Z.leb_le in Hmax.
  destruct ks as [|k0 ks]; [discriminate Hmin|].
  exists (length (kseq k0)). simpl in Hsame. simpl length in Hmax.
  split.
  - simpl load. unfold load_step. simpl st_L. simpl st_N.
    change (-1 <? 0) with true. cbv iota.
    rewrite Z.eqb_refl. simpl negb. cbv iota.
    change (MAX_SEQ <=? 0) with false. cbv iota.
    rewrite load_same; simpl; try assumption; try lia.
    + do 2 f_equal. lia.
    + unfold kseq_len. lia.
  - constructor; [reflexivity|].
    apply Forall_forall. intros k Hk.
    rewrite forallb_forall in Hsame.
    apply list_elem_of_In in Hk. specialize (Hsame k Hk).
    apply Z.eqb_eq in Hsame. unfold kseq_len in Hsame. lia.
Qed.

(** What a completed loading loop implies about its input. *)
Lemma load_inl (o : options) (ks : list kseq_t) (st st' : load_state) :
  load o ks st = inl st' →
  st_N st' = st_N st + Z.of_nat (length ks)
  ∧ (ks ≠ [] → st_N st' <= MAX_SEQ)
  ∧ (0 <= st_L st → st_L st' = st_L st)
  ∧ forallb (fun k => kseq_len k =? st_L st') ks = true.
Proof.
  revert st. induction ks as [|k ks IH]; intros st H.
  - simpl in H. injection H as <-. simpl.
    split; [lia|]. split; [intros Hne; now destruct Hne|].
    split; [reflexivity|reflexivity].
  - simpl in H. unfold load_step in H.
    set (L := if st_L st <? 0 then kseq_len k else st_L st) in H.
    destruct (Z.eqb_spec (kseq_len k) L) as [Hk|Hk]; simpl in H;
      [|discriminate].
    destruct (Z.leb_spec MAX_SEQ (st_N st)) as [Hm|Hm]; [discriminate|].
    apply IH in H. simpl in H. destruct H as (HN & Hmax & HL & Hall).
    assert (0 <= L) as HL0.
    { subst L. unfold kseq_len.
      destruct (Z.ltb_spec (st_L st) 0); lia. }
    specialize (HL HL0).
    repeat split.
    + simpl length. lia.
    + intros _. destruct ks as [|k' ks']; [simpl in HN; lia|].
      apply Hmax. discriminate.
    + intros H0. rewrite HL. subst L.
      destruct (Z.ltb_spec (st_L st) 0); [lia|reflexivity].
    + simpl. rewrite Hall, andb_true_r. rewrite HL. now apply Z.eqb_eq.
Qed.

(** A record shorter or longer than the first stops the run. *)
Lemma load_mismatch (o : options) (ks : list kseq_t) :
  same_length ks = false → ∃ e, load o ks load_init = inr e.
Proof.
  intros Hs. destruct (load o ks load_init) as [st'|e] eqn:E; [|eauto].
  exfalso. destruct ks as [|k0 ks]; [discriminate|].
  simpl in E. unfold load_step in E. simpl st_L in E. simpl st_N in E.
  change (-1 <? 0) with true in E. cbv iota in E.
  rewrite Z.eqb_refl in E. simpl negb in E. cbv iota in E.
  change (MAX_SEQ <=? 0) with false in E. cbv iota in E.
  apply load_inl in E. simpl in E. destruct E as (_ & _ & HL & Hall).
  rewrite HL in Hall by (unfold kseq_len; lia).
  simpl in Hs. congruence.
Qed.

(** So does a record beyond the capacity. *)
Lemma load_too_many (o : options) (ks : list kseq_t) :
  MAX_SEQ < Z.of_nat (length ks) → ∃ e, load o ks load_init = inr e.
Proof.
  intros Hn. destruct (load o ks load_init) as [st'|e] eqn:E; [|eauto].
  exfalso. apply load_inl in E. simpl in E. destruct E as (HN & Hmax & _).
  destruct ks as [|k ks]; [simpl in Hn; unfold MAX_SEQ in Hn; lia|].
  specialize (Hmax ltac:(discriminate)). lia.
Qed.

(** ** Printing *)

Section IndexLoops.

Context {A B : Type}.

(** A loop over the indices of an array visits its elements in order. *)
Lemma mapM_seq_lookup_from (h : A → option B) (pre l : list A) :
  mapM (fun j => x ← (pre ++ l) !! j; h x) (seq (length pre) (length l))
  = mapM h l.
Proof.
  revert pre. induction l as [|x l IH]; intros pre; simpl.
  - reflexivity.
  - rewrite list_lookup_middle by reflexivity. simpl.
    destruct (h x) as [y|]; [|reflexivity]. simpl.
    specialize (IH (pre ++ [x])).
    rewrite length_app, <- app_assoc in IH. simpl in IH.
    rewrite Nat.add_1_r in IH. now rewrite IH.
Qed.

Lemma mapM_seq_lookup (h : A → option B) (l : list A) :
  mapM (fun j => x ← l !! j; h x) (seq 0 (length l)) = mapM h l.
Proof. apply (mapM_seq_lookup_from h [] l). Qed.

Lemma mapM_total (h : A → option B) (g : A → B) (l : list A) :
  Forall (fun x => h x = Some (g x)) l → mapM h l = Some (g <$> l).
Proof.
  induction 1 as [|x l Hx _ IH]; simpl.
  - reflexivity.
  - now rewrite Hx, IH.
Qed.

End IndexLoops.

Lemma zip_with_fmap_pair {A B C D : Type} (g : A → C → D) (F : B → C)
    (la : list A) (lb : list B) :
  (fun p => g p.1 (F p.2)) <$> zip la lb = zip_with g la (F <$> lb).
Proof.
  revert lb. induction la as [|x la IH]; intros [|y lb]; simpl;
    try reflexivity.
  now rewrite IH.
Qed.

Section Printing.

Variables (t : table_t) (o : options) (st : load_state) (L : nat).

Hypothesis st_count : st_N st = Z.of_nat (length (st_seq st)).
Hypothesis st_names : length (st_name st) = length (st_seq st).
Hypothesis st_len : st_L st = Z.of_nat L.
Hypothesis st_aligned : Forall (fun s => length s = L) (st_seq st).

Lemma print_header_ok :
  print_header o st = Some (header_line o (st_name st)).
Proof.
  unfold print_header, header_line.
  rewrite st_count, Nat2Z.id, <- st_names.
  rewrite (mapM_seq_lookup (fun nj => Some [Chr (sep o); Str nj])).
  rewrite (mapM_total _ (fun nj => [Chr (sep o); Str nj]));
    [reflexivity|].
  apply Forall_forall. reflexivity.
Qed.

Lemma print_cells_ok (j : nat) (sj : list char) :
  st_seq st !! j = Some sj →
  print_cells t o st j
  = Some (concat ((fun d => [Chr (sep o); Num d])
                    <$> (distance_fold t sj <$> st_seq st))).
Proof.
  intros Hj. unfold print_cells.
  rewrite st_count, st_len, !Nat2Z.id.
  rewrite (mapM_ext _ (fun i => si ← st_seq st !! i;
                                d ← distance t sj si L;
                                Some [Chr (sep o); Num d]))
    by (intros i; now rewrite Hj).
  rewrite mapM_seq_lookup.
  rewrite (mapM_total _ (fun si => [Chr (sep o);
                                     Num (distance_fold t sj si)])).
  - simpl. now rewrite <- list_fmap_compose.
  - assert (length sj = L) as HLj.
    { eapply Forall_lookup_1 in st_aligned; eauto. }
    eapply Forall_impl; [exact st_aligned|].
    intros si HLi. simpl in HLi.
    now rewrite (distance_defined t sj si L HLj HLi).
Qed.

Lemma print_matrix_ok :
  print_matrix t o st
  = Some (concat (zip_with (row_line o) (st_name st)
                           (matrix_of t (st_seq st)))).
Proof.
  unfold print_matrix, matrix_of.
  rewrite st_count, Nat2Z.id.
  rewrite (mapM_ext _ (fun j => p ← zip (st_name st) (st_seq st) !! j;
                                Some (row_line o p.1
                                        (distance_fold t p.2 <$> st_seq st)))).
  - replace (length (st_seq st))
      with (length (zip (st_name st) (st_seq st)))
      by (rewrite length_zip_with; lia).
    rewrite mapM_seq_lookup.
    rewrite (mapM_total _ (fun p => row_line o p.1
                                      (distance_fold t p.2 <$> st_seq st)))
      by (apply Forall_forall; reflexivity).
    simpl. f_equal. f_equal.
    apply (zip_with_fmap_pair (row_line o)
             (fun sj => distance_fold t sj <$> st_seq st)).
  - intros j.
    rewrite (lookup_zip_with pair (st_name st) (st_seq st) j).
    destruct (st_name st !! j) as [nj|] eqn:Hn; [|reflexivity]. simpl.
    destruct (st_seq st !! j) as [sj|] eqn:Hj; simpl.
    + now rewrite (print_cells_ok j sj Hj).
    + exfalso. apply lookup_lt_Some in Hn. apply lookup_ge_None in Hj.
      lia.
Qed.

End Printing.

(** The cells of the matrix are the results of [distance]. *)
Lemma matrix_of_entry (t : table_t) (seqs : list (list char)) (L i j : nat)
    (si sj : list char) :
  Forall (fun s => length s = L) seqs →
  seqs !! i = Some si → seqs !! j = Some sj →
  entry (matrix_of t seqs) i j = Some (distance_fold t si sj)
  ∧ distance t si sj L = Some (distance_fold t si sj).
Proof.
  intros Hall Hi Hj. split.
  - unfold entry, matrix_of.
    rewrite list_lookup_fmap, Hi. simpl.
    now rewrite list_lookup_fmap, Hj.
  - apply distance_defined.
    + eapply Forall_lookup_1 in Hall; eauto.
    + eapply Forall_lookup_1 in Hall; eauto.
Qed.

Lemma matrix_of_length (t : table_t) (seqs : list (list char)) :
  length (matrix_of t seqs) = length seqs.
Proof. unfold matrix_of. apply length_fmap. Qed.

Lemma stored_seqs_aligned (o : options) (ks : list kseq_t) (L : nat) :
  Forall (fun k => length (kseq k) = L) ks →
  Forall (fun s => length s = L) (stored_seqs o ks).
Proof.
  intros H. unfold stored_seqs. apply Forall_fmap.
  eapply Forall_impl; [exact H|].
  intros k Hk. simpl. now rewrite store_seq_length.
Qed.

(** ** A run on an alignment *)

Lemma main_from_alignment (t : table_t) (o : options)
    (fasta : list char) (rest : list (list char))
    (gzopen : list char → option (list kseq_t)) (ks : list kseq_t) :
  gzopen fasta = Some ks → alignment ks = true →
  ∃ L : nat,
    Forall (fun s => length s = L) (stored_seqs o ks)
    ∧ main_from t o (fasta :: rest) gzopen
      = Some {| status := 0;
                stdout := render o (stored_names ks)
                                 (matrix_of t (stored_seqs o ks));
                stderr := say o Hello
                            ++ say o (ReadInfo (Z.of_nat (length ks))
                                               (Z.of_nat L)) |}.
Proof.
  intros Hopen Hal.
  destruct (load_alignment o ks Hal) as (L & Hload & HL).
  exists L. pose proof (stored_seqs_aligned o ks L HL) as Hst.
  split; [exact Hst|].
  unfold main_from. rewrite Hopen, Hload. simpl st_N.
  assert (1 <= Z.of_nat (length ks)) as H1.
  { unfold alignment in Hal. apply andb_prop in Hal as [Hal _].
    apply andb_prop in Hal as [Hal _]. now apply Z.leb_le. }
  destruct (Z.ltb_spec (Z.of_nat (length ks)) 1) as [?|_]; [lia|].
  set (st := {| st_seq := stored_seqs o ks; st_name := stored_names ks;
                st_N := Z.of_nat (length ks); st_L := Z.of_nat L |}).
  assert (st_N st = Z.of_nat (length (st_seq st))) as Hc.
  { simpl. unfold stored_seqs. now rewrite length_fmap. }
  assert (length (st_name st) = length (st_seq st)) as Hn.
  { simpl. unfold stored_seqs, stored_names. now rewrite !length_fmap. }
  rewrite (print_header_ok o st Hc Hn).
  rewrite (print_matrix_ok t o st L Hc Hn eq_refl Hst).
  reflexivity.
Qed.

(** A loading loop that completes with a record has read an alignment. *)
Lemma load_inl_alignment (o : options) (ks : list kseq_t) (st' : load_state) :
  load o ks load_init = inl st' → 1 <= st_N st' → alignment ks = true.
Proof.
  intros E H1. apply load_inl in E. simpl in E.
  destruct E as (HN & Hmax & _ & Hall).
  destruct ks as [|k0 ks]; [simpl in HN; lia|].
  specialize (Hmax ltac:(discriminate)).
  unfold alignment. rewrite !andb_true_iff. repeat split.
  - apply Z.leb_le. lia.
  - apply Z.leb_le. lia.
  - simpl in Hall. apply andb_prop in Hall as [Hk0 Hall].
    apply Z.eqb_eq in Hk0. simpl. now rewrite Hk0.
Qed.

(** Every run ends: with status 0, or with [EXIT_FAILURE] and nothing
    on the standard output.  No run reads outside a buffer. *)
Lemma main_from_defined (t : table_t) (o : options)
    (operands : list (list char))
    (gzopen : list char → option (list kseq_t)) :
  ∃ r, main_from t o operands gzopen = Some r
       ∧ (status r = 0 ∨ (status r = EXIT_FAILURE ∧ stdout r = [])).
Proof.
  destruct operands as [|fasta rest].
  { eexists. split; [reflexivity|]. right. split; reflexivity. }
  destruct (gzopen fasta) as [ks|] eqn:Hopen.
  - destruct (load o ks load_init) as [st'|e] eqn:E.
    + destruct (Z.ltb_spec (st_N st') 1) as [Hlt|Hge].
      * apply Z.ltb_lt in Hlt. unfold main_from. rewrite Hopen, E, Hlt.
        eexists. split; [reflexivity|]. right. split; reflexivity.
      * pose proof (load_inl_alignment o ks st' E Hge) as Hal.
        destruct (main_from_alignment t o fasta rest gzopen ks Hopen Hal)
          as (L & _ & ->).
        eexists. split; [reflexivity|]. left. reflexivity.
    + unfold main_from. rewrite Hopen, E.
      eexists. split; [reflexivity|]. right. split; reflexivity.
  - unfold main_from. rewrite Hopen.
    eexists. split; [reflexivity|]. right. split; reflexivity.
Qed.

(** ** The distance function *)

(** C1: on two sequences of [L] symbols each, [distance] returns the sum
    over the positions of the contribution of that position: nothing for
    equal symbols, nothing when either symbol is the ignore sentinel, the
    table entry otherwise; the sum is not negative.  [L] is a [size_t]. *)
Theorem distance_position_sum (a b : list char) (L : nat) :
  length a = L → length b = L → Z.of_nat L <= SIZE_MAX →
  distance table a b L = Some (position_sum table a b)
  ∧ 0 <= position_sum table a b.
Proof.
  intros Ha Hb HL. split.
  - rewrite (distance_defined table a b L Ha Hb).
    f_equal. apply distance_fold_sum; [apply table_range|]. now rewrite Ha.
  - apply position_sum_range, table_range.
Qed.

Lemma distance_position_sum_witness :
  distance table (lit "ACGT") (lit "ACGA") 4
  = Some (position_sum table (lit "ACGT") (lit "ACGA"))
  ∧ 0 <= position_sum table (lit "ACGT") (lit "ACGA").
Proof.
  apply (distance_position_sum (lit "ACGT") (lit "ACGA") 4);
    [reflexivity | reflexivity | unfold SIZE_MAX; lia].
Defined.

(** C10: every cell of the table [init_table] builds is 0 or 1, and the
    distance of two sequences of [L] symbols is at most [L]. *)
Theorem distance_at_most_length (a b : list char) (L : nat) :
  length a = L → length b = L →
  (∀ x y, tget (init_table zero_table) x y = 0
          ∨ tget (init_table zero_table) x y = 1)
  ∧ ∃ d, distance (init_table zero_table) a b L = Some d
         ∧ 0 <= d <= Z.of_nat L.
Proof.
  intros Ha Hb. fold table. split.
  - intros x y. pose proof (table_range x y). lia.
  - exists (distance_fold table a b). split.
    + now apply distance_defined.
    + rewrite <- Ha. apply distance_fold_bound, table_range.
Qed.

Lemma distance_at_most_length_witness :
  ∃ d, distance (init_table zero_table) (lit "ACGT") (lit "TGCA") 4 = Some d
       ∧ 0 <= d <= 4.
Proof.
  apply (distance_at_most_length (lit "ACGT") (lit "TGCA") 4);
    reflexivity.
Defined.

(** C5: writing the ignore sentinel over a symbol of either sequence
    never increases the distance, and a position where both sequences
    hold the sentinel leaves the count as it is, whatever the table
    holds. *)
Theorem ignore_sentinel_absorbs (a b : list char) (L i : nat) :
  length a = L → length b = L → Z.of_nat L <= SIZE_MAX →
  (∃ d da db,
      distance table a b L = Some d
      ∧ distance table (<[i := IGNORE_CHAR]> a) b L = Some da
      ∧ distance table a (<[i := IGNORE_CHAR]> b) L = Some db
      ∧ da <= d ∧ db <= d)
  ∧ ∀ (t : table_t) (diff : Z),
      distance_step t IGNORE_CHAR IGNORE_CHAR diff = diff.
Proof.
  intros Ha Hb HL. split.
  - assert (length (<[i := IGNORE_CHAR]> a) = L) as Ha'
        by now rewrite length_insert.
    assert (length (<[i := IGNORE_CHAR]> b) = L) as Hb'
        by now rewrite length_insert.
    exists (position_sum table a b),
      (position_sum table (<[i := IGNORE_CHAR]> a) b),
      (position_sum table a (<[i := IGNORE_CHAR]> b)).
    rewrite (distance_defined table a b L Ha Hb),
      (distance_defined table _ b L Ha' Hb),
      (distance_defined table a _ L Ha Hb').
    rewrite !distance_fold_sum by (try apply table_range; lia).
    repeat split.
    + apply position_sum_ignore_l, table_range.
    + apply position_sum_ignore_r, table_range.
  - intros t diff. apply distance_step_ignore_l.
Qed.

Lemma ignore_sentinel_absorbs_witness :
  ∃ d da db,
    distance table (lit "ACGT") (lit "ACGA") 4 = Some d
    ∧ distance table (<[3%nat := IGNORE_CHAR]> (lit "ACGT")) (lit "ACGA") 4
      = Some da
    ∧ distance table (lit "ACGT") (<[3%nat := IGNORE_CHAR]> (lit "ACGA")) 4
      = Some db
    ∧ da <= d ∧ db <= d.
Proof.
  apply (ignore_sentinel_absorbs (lit "ACGT") (lit "ACGA") 4 3);
    [reflexivity | reflexivity | unfold SIZE_MAX; lia].
Defined.

(** C6: a sequence is at distance 0 from itself, whatever the table
    holds, and the diagonal of the matrix [main] prints is zero. *)
Theorem identity_zero_diagonal (t : table_t) (s : list char) (L : nat)
    (o : options) (fasta : list char) (rest : list (list char))
    (gzopen : list char → option (list kseq_t)) (ks : list kseq_t) :
  length s = L → gzopen fasta = Some ks → alignment ks = true →
  distance t s s L = Some 0
  ∧ ∃ m err,
      main_from t o (fasta :: rest) gzopen
      = Some {| status := 0; stdout := render o (stored_names ks) m;
                stderr := err |}
      ∧ length m = length ks
      ∧ ∀ i, (i < length ks)%nat → entry m i i = Some 0.
Proof.
  intros Hs Hopen Hal. split.
  - rewrite (distance_defined t s s L Hs Hs). f_equal.
    apply distance_fold_refl.
  - destruct (main_from_alignment t o fasta rest gzopen ks Hopen Hal)
      as (L' & Hst & Hmain).
    eexists _, _. split; [exact Hmain|]. split.
    + rewrite matrix_of_length. unfold stored_seqs. apply length_fmap.
    + intros i Hi.
      destruct (lookup_lt_is_Some_2 (stored_seqs o ks) i) as [si Hsi].
      { unfold stored_seqs. now rewrite length_fmap. }
      destruct (matrix_of_entry t _ L' i i si si Hst Hsi Hsi) as [He _].
      now rewrite He, distance_fold_refl.
Qed.

Lemma identity_zero_diagonal_witness :
  distance table (lit "ACGT") (lit "ACGT") 4 = Some 0
  ∧ ∃ m err,
      main_from table (flags false true) [lit "aln.fa"] (holding three_records)
      = Some {| status := 0;
                stdout := render (flags false true)
                                 (stored_names three_records) m;
                stderr := err |}
      ∧ length m = length three_records
      ∧ ∀ i, (i < length three_records)%nat → entry m i i = Some 0.
Proof.
  apply (identity_zero_diagonal table (lit "ACGT") 4 (flags false true)
           (lit "aln.fa") [] (holding three_records) three_records);
    reflexivity.
Defined.

(** C7: with a symmetric table in the static array the matrix [main]
    prints is symmetric, and the table [init_table] builds is
    symmetric. *)
Theorem symmetric_table_symmetric_matrix (t : table_t) (o : options)
    (fasta : list char) (rest : list (list char))
    (gzopen : list char → option (list kseq_t)) (ks : list kseq_t) :
  (∀ x y, tget t x y = tget t y x) →
  gzopen fasta = Some ks → alignment ks = true →
  (∃ m err,
      main_from t o (fasta :: rest) gzopen
      = Some {| status := 0; stdout := render o (stored_names ks) m;
                stderr := err |}
      ∧ length m = length ks
      ∧ ∀ i j, (i < length ks)%nat → (j < length ks)%nat →
               ∃ d, entry m i j = Some d ∧ entry m j i = Some d)
  ∧ ∀ x y, tget (init_table zero_table) x y
           = tget (init_table zero_table) y x.
Proof.
  intros Hsym Hopen Hal. split; [|exact table_symmetric].
  destruct (main_from_alignment t o fasta rest gzopen ks Hopen Hal)
    as (L & Hst & Hmain).
  eexists _, _. split; [exact Hmain|]. split.
  - rewrite matrix_of_length. unfold stored_seqs. apply length_fmap.
  - intros i j Hi Hj.
    destruct (lookup_lt_is_Some_2 (stored_seqs o ks) i) as [si Hsi].
    { unfold stored_seqs. now rewrite length_fmap. }
    destruct (lookup_lt_is_Some_2 (stored_seqs o ks) j) as [sj Hsj].
    { unfold stored_seqs. now rewrite length_fmap. }
    destruct (matrix_of_entry t _ L i j si sj Hst Hsi Hsj) as [Eij Dij].
    destruct (matrix_of_entry t _ L j i sj si Hst Hsj Hsi) as [Eji Dji].
    exists (distance_fold t si sj). split; [exact Eij|].
    rewrite Eji, <- Dji, <- Dij. now apply distance_sym.
Qed.

Lemma symmetric_table_symmetric_matrix_witness :
  ∃ m err,
    main_from table (flags false true) [lit "aln.fa"] (holding three_records)
    = Some {| status := 0;
              stdout := render (flags false true)
                               (stored_names three_records) m;
              stderr := err |}
    ∧ length m = length three_records
    ∧ ∀ i j, (i < length three_records)%nat →
             (j < length three_records)%nat →
             ∃ d, entry m i j = Some d ∧ entry m j i = Some d.
Proof.
  apply (symmetric_table_symmetric_matrix table (flags false true)
           (lit "aln.fa") [] (holding three_records) three_records);
    [exact table_symmetric | reflexivity | reflexivity].
Defined.

(** ** The matrix builder *)

(** C2: once [N] records of one length are loaded, the output loops
    print the names in the order of the input and, for every ordered
    pair [(i, j)] of records, diagonal included, the result of
    [distance] on record [i] and record [j] as cell [j] of row [i]. *)
Theorem matrix_all_ordered_pairs (o : options) (st : load_state) (L : nat) :
  st_N st = Z.of_nat (length (st_seq st)) →
  length (st_name st) = length (st_seq st) →
  st_L st = Z.of_nat L →
  Forall (fun s => length s = L) (st_seq st) →
  ∃ m,
    print_header o st = Some (header_line o (st_name st))
    ∧ print_matrix table o st
      = Some (concat (zip_with (row_line o) (st_name st) m))
    ∧ length m = length (st_seq st)
    ∧ ∀ i j si sj,
        st_seq st !! i = Some si → st_seq st !! j = Some sj →
        ∃ d, distance table si sj L = Some d ∧ entry m i j = Some d.
Proof.
  intros Hc Hn HL Hall. exists (matrix_of table (st_seq st)).
  split; [now apply print_header_ok|].
  split; [now apply (print_matrix_ok table o st L)|].
  split; [apply matrix_of_length|].
  intros i j si sj Hi Hj.
  destruct (matrix_of_entry table _ L i j si sj Hall Hi Hj) as [E D].
  eauto.
Qed.

Lemma matrix_all_ordered_pairs_witness :
  ∃ m,
    print_header (flags false false) three_loaded
    = Some (header_line (flags false false) (st_name three_loaded))
    ∧ print_matrix table (flags false false) three_loaded
      = Some (concat (zip_with (row_line (flags false false))
                               (st_name three_loaded) m))
    ∧ length m = length (st_seq three_loaded)
    ∧ ∀ i j si sj,
        st_seq three_loaded !! i = Some si →
        st_seq three_loaded !! j = Some sj →
        ∃ d, distance table si sj 4 = Some d ∧ entry m i j = Some d.
Proof.
  apply (matrix_all_ordered_pairs (flags false false) three_loaded 4);
    [reflexivity | reflexivity | reflexivity |].
  repeat constructor.
Defined.

(** ** The content of the table *)

(** What the table holds for two symbols with no base in common: 1 when
    both are definite bases, 0 when either is an ambiguity code. *)
Lemma disjoint_counted_iff_definite (x y : char) :
  disjoint_bases x y = true →
  tget table x y = (if definite x && definite y then 1 else 0).
Proof.
  assert (∀ x y, implb (disjoint_bases x y)
                   (tget table x y
                    =? (if definite x && definite y then 1 else 0)) = true)
    as Hall
    by (apply forall_chars2_spec; vm_compute; reflexivity).
  specialize (Hall x y). intros H. rewrite H in Hall. simpl in Hall.
  now apply Z.eqb_eq.
Qed.

(** C3: two symbols with no base in common are to count as one
    difference, A against C and W against C among them.  The table does
    so for A against C; for W (A or T) against C the cell is 0, and with
    [-a] two records [W] and [C] are printed at distance 0. *)
Theorem W_against_C_not_counted :
  tget table "A" "C" = 1
  ∧ disjoint_bases "W" "C" = true
  ∧ tget table "W" "C" = 0
  ∧ distance table (store_seq (flags false true) (lit "W"))
                   (store_seq (flags false true) (lit "C")) 1 = Some 0
  ∧ ∃ err,
      main (flags false true) [lit "aln.fa"]
           (holding [record "S1" "W"; record "S2" "C"])
      = Some {| status := 0;
                stdout := render (flags false true)
                                 [lit "S1"; lit "S2"] [[0; 0]; [0; 0]];
                stderr := err |}.
Proof.
  repeat split; try reflexivity.
  eexists. vm_compute. reflexivity.
Qed.

(** C4, as stated, fails: W (A or T) and T have a base in common, and
    the cell for the pair is not 0. *)
Lemma W_against_T_counted :
  share_base "W" "T" = true ∧ tget table "W" "T" ≠ 0.
Proof. split; [reflexivity | vm_compute; discriminate]. Qed.

(** C4, amended: for two symbols with a base in common, or one of which
    is the undetermined code N, the cell is 0, the pair of W and T set
    aside; A against N and A against R give 0. *)
Theorem compatible_not_counted (x y : char) :
  share_base x y = true ∨ undetermined x = true ∨ undetermined y = true →
  pair_WT x y = false →
  tget table x y = 0 ∧ tget table "A" "N" = 0 ∧ tget table "A" "R" = 0.
Proof.
  intros H HWT. split; [|split; reflexivity].
  assert (∀ x y, implb (share_base x y || undetermined x || undetermined y)
                   (tget table x y =? (if pair_WT x y then 1 else 0)) = true)
    as Hall
    by (apply forall_chars2_spec; vm_compute; reflexivity).
  specialize (Hall x y).
  assert (share_base x y || undetermined x || undetermined y = true) as Hb.
  { destruct H as [-> | [-> | ->]]; rewrite ?orb_true_r; reflexivity. }
  rewrite Hb, HWT in Hall. simpl in Hall. now apply Z.eqb_eq.
Qed.

Lemma compatible_not_counted_witness :
  tget table "A" "R" = 0 ∧ tget table "A" "N" = 0 ∧ tget table "A" "R" = 0.
Proof.
  apply (compatible_not_counted "A" "R"); [left|]; reflexivity.
Defined.

(** ** Case *)

(** C8, as stated, fails: with [-k] the distance of [acgt] and [ACGT] is
    not 4. *)
Lemma keep_case_not_maximal :
  distance table (store_seq (flags true false) (lit "acgt"))
                 (store_seq (flags true false) (lit "ACGT")) 4 ≠ Some 4.
Proof. vm_compute. discriminate. Qed.

(** C8, amended: with [-k] and without [-a] every lower-case letter of
    a record without NUL is replaced by the ignore sentinel when the
    record is stored, so [acgt] is stored as four sentinels, the
    distance of [acgt] and [ACGT] is 0 and [main] prints a matrix of
    zeros. *)
Theorem keep_case_distance_zero (o : options) (fasta : list char) :
  keepcase o = true → allchars o = false →
  (∀ (s : list char) (i : nat) (c : char),
      Forall (fun x => x ≠ NUL) s →
      s !! i = Some c → is_lower c = true →
      store_seq o s !! i = Some IGNORE_CHAR)
  ∧ store_seq o (lit "acgt") = lit "...."
  ∧ distance table (store_seq o (lit "acgt")) (store_seq o (lit "ACGT")) 4
    = Some 0
  ∧ ∃ err,
      main o [fasta] (holding two_cases)
      = Some {| status := 0;
                stdout := render o (stored_names two_cases) [[0; 0]; [0; 0]];
                stderr := err |}.
Proof.
  intros Hk Ha. split.
  { intros s i c Hs Hi Hl. rewrite (store_seq_no_NUL o s Hs).
    unfold normalize. rewrite Hk, Ha, list_lookup_fmap, Hi. simpl.
    f_equal. now apply clean_lower. }
  destruct o as [q c b a k]. simpl in Hk, Ha. subst k a.
  split; [reflexivity|]. split; [vm_compute; reflexivity|].
  destruct q, c, b; eexists; vm_compute; reflexivity.
Qed.

Lemma keep_case_distance_zero_witness :
  (∀ (s : list char) (i : nat) (c : char),
      Forall (fun x => x ≠ NUL) s →
      s !! i = Some c → is_lower c = true →
      store_seq (flags true false) s !! i = Some IGNORE_CHAR)
  ∧ store_seq (flags true false) (lit "acgt") = lit "...."
  ∧ distance table (store_seq (flags true false) (lit "acgt"))
                   (store_seq (flags true false) (lit "ACGT")) 4
    = Some 0
  ∧ ∃ err,
      main (flags true false) [lit "aln.fa"] (holding two_cases)
      = Some {| status := 0;
                stdout := render (flags true false)
                                 (stored_names two_cases) [[0; 0]; [0; 0]];
                stderr := err |}.
Proof.
  apply (keep_case_distance_zero (flags true false) (lit "aln.fa"));
    reflexivity.
Defined.

(** ** Refusals *)

(** C9: without a file name argument, with a file that cannot be opened,
    with no sequence in the file, with a sequence whose length differs
    from that of the first, and with more sequences than [MAX_SEQ], the
    run ends with a status other than zero and has printed nothing on
    the standard output: the loading loop stops it before the output
    loops start. *)
Theorem rejected_exits_nonzero (o : options) (operands : list (list char))
    (gzopen : list char → option (list kseq_t)) :
  rejected operands gzopen →
  ∃ err,
    main o operands gzopen
    = Some {| status := EXIT_FAILURE; stdout := []; stderr := err |}
    ∧ EXIT_FAILURE ≠ 0.
Proof.
  intros [-> | fasta rest -> Hopen | fasta rest -> Hopen
          | fasta rest ks -> Hopen Hlen | fasta rest ks -> Hopen Hmany];
    unfold main, main_from.
  - eexists. split; [reflexivity | discriminate].
  - rewrite Hopen. eexists. split; [reflexivity | discriminate].
  - rewrite Hopen. simpl. eexists. split; [reflexivity | discriminate].
  - rewrite Hopen. destruct (load_mismatch o ks Hlen) as [e ->].
    eexists. split; [reflexivity | discriminate].
  - rewrite Hopen. destruct (load_too_many o ks Hmany) as [e ->].
    eexists. split; [reflexivity | discriminate].
Qed.

Lemma rejected_exits_nonzero_witness :
  (∃ err, main (flags false false) [] unreadable
          = Some {| status := EXIT_FAILURE; stdout := []; stderr := err |}
          ∧ EXIT_FAILURE ≠ 0)
  ∧ (∃ err, main (flags false false) [lit "aln.fa"] unreadable
            = Some {| status := EXIT_FAILURE; stdout := []; stderr := err |}
            ∧ EXIT_FAILURE ≠ 0)
  ∧ (∃ err, main (flags false false) [lit "aln.fa"] (holding [])
            = Some {| status := EXIT_FAILURE; stdout := []; stderr := err |}
            ∧ EXIT_FAILURE ≠ 0)
  ∧ (∃ err, main (flags false false) [lit "aln.fa"] (holding ragged)
            = Some {| status := EXIT_FAILURE; stdout := []; stderr := err |}
            ∧ EXIT_FAILURE ≠ 0)
  ∧ (∃ err, main (flags false false) [lit "aln.fa"] (holding crowd)
            = Some {| status := EXIT_FAILURE; stdout := []; stderr := err |}
            ∧ EXIT_FAILURE ≠ 0).
Proof.
  repeat split.
  - apply (rejected_exits_nonzero (flags false false) [] unreadable).
    now apply no_argument.
  - apply (rejected_exits_nonzero (flags false false) [lit "aln.fa"]
             unreadable).
    now apply (open_failure _ _ (lit "aln.fa") []).
  - apply (rejected_exits_nonzero (flags false false) [lit "aln.fa"]
             (holding [])).
    now apply (no_sequences _ _ (lit "aln.fa") []).
  - apply (rejected_exits_nonzero (flags false false) [lit "aln.fa"]
             (holding ragged)).
    now apply (length_mismatch _ _ (lit "aln.fa") [] ragged).
  - apply (rejected_exits_nonzero (flags false false) [lit "aln.fa"]
             (holding crowd)).
    apply (too_many _ _ (lit "aln.fa") [] crowd);
      [reflexivity | reflexivity | vm_compute; reflexivity].
Defined.
(** ** The writes of [init_table] *)

Lemma uchar_lt (c : char) : (uchar c < 256)%nat.
Proof. apply nat_ascii_bounded. Qed.

Lemma uchar_inj (a b : char) : uchar a = uchar b → a = b.
Proof.
  unfold uchar. intros H.
  rewrite <- (ascii_nat_embedding a), <- (ascii_nat_embedding b).
  now rewrite H.
Qed.

Lemma tset_wf (t : table_t) (a b : char) (v : Z) :
  wf_table t → wf_table (tset t a b v).
Proof.
  intros [Hlen Hrows]. unfold tset, table_t in *. split.
  - now rewrite length_alter.
  - apply Forall_alter; [exact Hrows|].
    intros row _ Hrow. now rewrite length_insert.
Qed.

(** Reading a cell after a write. *)
Lemma tget_tset (t : table_t) (a b x y : char) (v : Z) :
  wf_table t →
  tget (tset t a b v) x y
  = if Ascii.eqb a x && Ascii.eqb b y then v else tget t x y.
Proof.
  intros [Hlen Hrows]. unfold tget, tset, table_t in *.
  destruct (Ascii.eqb_spec a x) as [->|Hax]; simpl.
  - rewrite list_lookup_total_alter_eq by (rewrite Hlen; apply uchar_lt).
    assert (length (t !!! uchar x) = 256%nat) as Hrow.
    { destruct (lookup_lt_is_Some_2 t (uchar x)) as [row Hr];
        [rewrite Hlen; apply uchar_lt|].
      rewrite (list_lookup_total_correct _ _ _ Hr).
      eapply Forall_lookup_1 in Hrows; eauto. }
    destruct (Ascii.eqb_spec b y) as [->|Hby].
    + apply list_lookup_total_insert_eq. rewrite Hrow. apply uchar_lt.
    + apply list_lookup_total_insert_ne. intros E. now apply uchar_inj in E.
  - rewrite list_lookup_total_alter_ne; [reflexivity|].
    intros E. now apply uchar_inj in E.
Qed.

Lemma init_table_wf (t : table_t) : wf_table t → wf_table (init_table t).
Proof. intros H. unfold init_table. cbv zeta. repeat apply tset_wf. exact H. Qed.

Lemma zero_table_wf : wf_table zero_table.
Proof.
  unfold zero_table. split.
  - apply length_replicate.
  - apply Forall_replicate. apply length_replicate.
Qed.

(** The cells written, in the order of the last write first. *)
Lemma populated_writes (x y : char) :
  populated x y
  = (Ascii.eqb "W" x && Ascii.eqb "T" y) || ((Ascii.eqb "T" x && Ascii.eqb "W" y)
    || ((Ascii.eqb "T" x && Ascii.eqb "G" y) || ((Ascii.eqb "T" x && Ascii.eqb "C" y)
    || ((Ascii.eqb "T" x && Ascii.eqb "A" y) || ((Ascii.eqb "G" x && Ascii.eqb "T" y)
    || ((Ascii.eqb "G" x && Ascii.eqb "C" y) || ((Ascii.eqb "G" x && Ascii.eqb "A" y)
    || ((Ascii.eqb "C" x && Ascii.eqb "T" y) || ((Ascii.eqb "C" x && Ascii.eqb "G" y)
    || ((Ascii.eqb "C" x && Ascii.eqb "A" y) || ((Ascii.eqb "A" x && Ascii.eqb "T" y)
    || ((Ascii.eqb "A" x && Ascii.eqb "G" y)
    || (Ascii.eqb "A" x && Ascii.eqb "C" y))))))))))))).
Proof.
  apply Bool.eqb_prop. revert x y. apply forall_chars2_spec.
  vm_compute. reflexivity.
Qed.

(** X1: on any table of 256 by 256 cells [init_table] sets the twelve
    cells of two different bases among A, C, G, T and the two cells of W
    and T to 1 and leaves every other cell as it was; a second call
    changes nothing. *)
Theorem init_table_frame (t : table_t) (x y : char) :
  wf_table t →
  tget (init_table t) x y = (if populated x y then 1 else tget t x y)
  ∧ tget (init_table (init_table t)) x y = tget (init_table t) x y.
Proof.
  intros Hwf.
  assert (∀ t', wf_table t' →
            tget (init_table t') x y
            = if populated x y then 1 else tget t' x y) as Hframe.
  { intros t' Hwf'. unfold init_table. cbv zeta.
    rewrite !tget_tset by (repeat apply tset_wf; exact Hwf').
    rewrite populated_writes, !Ascii.eqb_refl. cbn [andb].
    generalize (tget t' x y). intros z.
    repeat match goal with
           | |- context [if (Ascii.eqb ?a x && Ascii.eqb ?b y) then _ else _] =>
               destruct (Ascii.eqb a x && Ascii.eqb b y); cbn [orb];
               [reflexivity|]
           end.
    reflexivity. }
  split; [now apply Hframe|].
  rewrite (Hframe (init_table t)) by now apply init_table_wf.
  rewrite (Hframe t Hwf). now destruct (populated x y).
Qed.

Lemma init_table_frame_witness :
  tget (init_table zero_table) "A" "C"
  = (if populated "A" "C" then 1 else tget zero_table "A" "C")
  ∧ tget (init_table (init_table zero_table)) "A" "C"
    = tget (init_table zero_table) "A" "C".
Proof. apply (init_table_frame zero_table "A" "C"). exact zero_table_wf. Defined.

(** ** What the kernel counts *)

Lemma contribution_populated (x y : char) :
  contribution table x y = if populated x y then 1 else 0.
Proof.
  apply Z.eqb_eq. revert x y. apply forall_chars2_spec.
  vm_compute. reflexivity.
Qed.

Lemma position_sum_count (a b : list char) :
  position_sum table a b = Z.of_nat (count_pairs populated a b).
Proof.
  revert b. induction a as [|x a IH]; intros [|y b]; simpl;
    try reflexivity.
  rewrite contribution_populated, IH.
  destruct (populated x y); lia.
Qed.

Lemma distance_count (a b : list char) (L : nat) :
  length a = L → length b = L → Z.of_nat L <= SIZE_MAX →
  distance table a b L = Some (Z.of_nat (count_pairs populated a b)).
Proof.
  intros Ha Hb HL.
  rewrite (distance_defined table a b L Ha Hb). f_equal.
  rewrite distance_fold_sum by (try apply table_range; lia).
  apply position_sum_count.
Qed.

(** X2: with the table of [init_table], the distance of two sequences
    of [L] symbols is the number of positions that hold two different
    bases among A, C, G, T, or W against T. *)
Theorem distance_counts_populated (a b : list char) (L : nat) :
  length a = L → length b = L → Z.of_nat L <= SIZE_MAX →
  distance table a b L = Some (Z.of_nat (count_pairs populated a b)).
Proof. exact (distance_count a b L). Qed.

Lemma distance_counts_populated_witness :
  distance table (lit "ACGTWN-") (lit "AGGAT-N") 7
  = Some (Z.of_nat (count_pairs populated (lit "ACGTWN-") (lit "AGGAT-N"))).
Proof.
  apply (distance_counts_populated (lit "ACGTWN-") (lit "AGGAT-N") 7);
    [reflexivity | reflexivity | unfold SIZE_MAX; lia].
Defined.

Lemma distance_loop_defined_iff (t : table_t) (a b : list char)
    (n i : nat) (diff : Z) :
  is_Some (distance_loop t a b i n diff)
  ↔ n = 0%nat ∨ (i + n <= length a ∧ i + n <= length b)%nat.
Proof.
  revert i diff. induction n as [|n IH]; intros i diff; simpl.
  - split; [now left | eauto].
  - destruct (a !! i) as [x|] eqn:Hx.
    + destruct (b !! i) as [y|] eqn:Hy.
      * apply lookup_lt_Some in Hx, Hy. rewrite IH. lia.
      * apply lookup_ge_None in Hy. split; [intros []; discriminate|lia].
    + apply lookup_ge_None in Hx. split; [intros []; discriminate|lia].
Qed.

Lemma distance_loop_take (t : table_t) (a b : list char)
    (n i : nat) (diff : Z) :
  distance_loop t a b i n diff
  = distance_loop t (take (i + n) a) (take (i + n) b) i n diff.
Proof.
  revert i diff. induction n as [|n IH]; intros i diff; simpl.
  - reflexivity.
  - rewrite !lookup_take_lt by lia.
    destruct (a !! i) as [x|]; [|reflexivity].
    destruct (b !! i) as [y|]; [|reflexivity].
    rewrite IH. now replace (S i + n)%nat with (i + S n)%nat by lia.
Qed.

(** X3: [distance] reads the positions below [L] and no other: it has a
    result exactly when both buffers hold at least [L] symbols, and the
    symbols from position [L] on do not enter the result. *)
Theorem distance_reads_below_L (t : table_t) (a b : list char) (L : nat) :
  (is_Some (distance t a b L) ↔ (L <= length a ∧ L <= length b)%nat)
  ∧ distance t a b L = distance t (take L a) (take L b) L.
Proof.
  split.
  - unfold distance. rewrite distance_loop_defined_iff. simpl. lia.
  - unfold distance. apply (distance_loop_take t a b L 0).
Qed.

Lemma position_sum_app (t : table_t) (a1 b1 a2 b2 : list char) :
  length a1 = length b1 →
  position_sum t (a1 ++ a2) (b1 ++ b2)
  = position_sum t a1 b1 + position_sum t a2 b2.
Proof.
  revert b1. induction a1 as [|x a1 IH]; intros [|y b1] H; simpl in *;
    try discriminate; [reflexivity|].
  rewrite IH by congruence. lia.
Qed.

(** X4: the distance of two concatenations is the sum of the distances
    of the parts. *)
Theorem distance_concatenation (a1 b1 a2 b2 : list char) (L1 L2 : nat) :
  length a1 = L1 → length b1 = L1 → length a2 = L2 → length b2 = L2 →
  Z.of_nat (L1 + L2) <= SIZE_MAX →
  ∃ d1 d2,
    distance table a1 b1 L1 = Some d1
    ∧ distance table a2 b2 L2 = Some d2
    ∧ distance table (a1 ++ a2) (b1 ++ b2) (L1 + L2) = Some (d1 + d2).
Proof.
  intros H1 H1' H2 H2' HL.
  exists (position_sum table a1 b1), (position_sum table a2 b2).
  assert (length (a1 ++ a2) = (L1 + L2)%nat) as Ha
      by (rewrite length_app; lia).
  assert (length (b1 ++ b2) = (L1 + L2)%nat) as Hb
      by (rewrite length_app; lia).
  rewrite (distance_defined table a1 b1 L1 H1 H1'),
    (distance_defined table a2 b2 L2 H2 H2'),
    (distance_defined table _ _ _ Ha Hb).
  rewrite !distance_fold_sum by (try apply table_range; lia).
  rewrite position_sum_app by congruence. auto.
Qed.

Lemma distance_concatenation_witness :
  ∃ d1 d2,
    distance table (lit "AC") (lit "AG") 2 = Some d1
    ∧ distance table (lit "GT") (lit "CA") 2 = Some d2
    ∧ distance table (lit "AC" ++ lit "GT") (lit "AG" ++ lit "CA") (2 + 2)
      = Some (d1 + d2).
Proof.
  apply (distance_concatenation (lit "AC") (lit "AG") (lit "GT") (lit "CA")
           2 2); try reflexivity.
  unfold SIZE_MAX. lia.
Defined.

Lemma populated_letters (x y : char) :
  populated x y = true →
  (definite x = true ∨ x = "W"%char) ∧ (definite y = true ∨ y = "W"%char).
Proof.
  unfold populated, pair_WT. intros H.
  apply orb_prop in H as [H|H].
  - apply andb_prop in H as [H _]. apply andb_prop in H as [Hx Hy]. auto.
  - apply orb_prop in H as [H|H]; apply andb_prop in H as [Hx Hy];
      apply Ascii.eqb_eq in Hx, Hy; subst; auto.
Qed.

Lemma count_pairs_none_l (p : char → char → bool) (a b : list char) :
  Forall (fun x => ∀ y, p x y = false) a → count_pairs p a b = 0%nat.
Proof.
  intros H. revert b. induction H as [|x a Hx _ IH]; intros [|y b]; simpl;
    try reflexivity.
  now rewrite Hx, IH.
Qed.

(** X5: a sequence without any of A, C, G, T, W, such as one of N
    only, is at distance 0 from every sequence. *)
Theorem no_base_no_distance (a b : list char) (L : nat) :
  Forall (fun c => definite c = false ∧ c ≠ "W"%char) a →
  length a = L → length b = L → Z.of_nat L <= SIZE_MAX →
  distance table a b L = Some 0 ∧ distance table b a L = Some 0.
Proof.
  intros Hall Ha Hb HL.
  assert (count_pairs populated a b = 0%nat) as H0.
  { apply count_pairs_none_l. eapply Forall_impl; [exact Hall|].
    intros x [Hd HW] y. simpl.
    destruct (populated x y) eqn:E; [|reflexivity].
    apply populated_letters in E as [[E|E] _]; congruence. }
  assert (distance table a b L = Some 0) as Hab.
  { rewrite (distance_count a b L Ha Hb HL). now rewrite H0. }
  split; [exact Hab|].
  rewrite <- Hab. apply distance_sym. exact table_symmetric.
Qed.

Lemma no_base_no_distance_witness :
  distance table (lit "NNNN") (lit "ACGT") 4 = Some 0
  ∧ distance table (lit "ACGT") (lit "NNNN") 4 = Some 0.
Proof.
  apply (no_base_no_distance (lit "NNNN") (lit "ACGT") 4);
    [| reflexivity | reflexivity | unfold SIZE_MAX; lia].
  repeat constructor; discriminate.
Defined.

(** ** Stored sequences *)


Lemma toupper_idempotent (c : char) : toupper (toupper c) = toupper c.
Proof.
  apply Ascii.eqb_eq. revert c. apply forall_chars_spec.
  vm_compute. reflexivity.
Qed.

Lemma toupper_NUL (c : char) : Ascii.eqb (toupper c) NUL = Ascii.eqb c NUL.
Proof.
  apply Bool.eqb_prop. revert c. apply forall_chars_spec.
  vm_compute. reflexivity.
Qed.

Lemma c_str_toupper (s : list char) :
  c_str (toupper <$> s) = toupper <$> c_str s.
Proof.
  induction s as [|c s IH]; [reflexivity|].
  rewrite fmap_cons. cbn [c_str].
  rewrite toupper_NUL. destruct (Ascii.eqb c NUL); [reflexivity|].
  now rewrite fmap_cons, IH.
Qed.


Lemma c_str_middle (p q : list char) :
  Forall (fun c => c ≠ NUL) p → c_str (p ++ NUL :: q) = p.
Proof.
  induction 1 as [|c p Hc _ IH]; simpl; [reflexivity|].
  apply Ascii.eqb_neq in Hc. now rewrite Hc, IH.
Qed.

Lemma c_str_no_NUL (s : list char) : Forall (fun c => c ≠ NUL) (c_str s).
Proof.
  induction s as [|c s IH]; simpl; [constructor|].
  destruct (Ascii.eqb_spec c NUL); [constructor|].
  now constructor.
Qed.


Lemma store_seq_toupper (o : options) (s : list char) :
  keepcase o = false →
  store_seq o (toupper <$> s) = store_seq o s.
Proof.
  intros Hk. unfold store_seq, normalize. cbv zeta.
  rewrite c_str_toupper, !length_fmap, Hk.
  rewrite <- list_fmap_compose.
  rewrite (list_fmap_ext (toupper ∘ toupper) toupper (c_str s))
    by (intros; apply toupper_idempotent).
  reflexivity.
Qed.

Lemma load_upcase (o : options) (ks : list kseq_t) (st : load_state) :
  keepcase o = false →
  load o (upcase <$> ks) st = load o ks st.
Proof.
  intros Hk. revert st. induction ks as [|k ks IH]; intros st.
  - reflexivity.
  - rewrite fmap_cons. cbn [load].
    assert (load_step o st (upcase k) = load_step o st k) as ->.
    { unfold load_step, kseq_len, upcase. cbn [kseq kname].
      now rewrite length_fmap, (store_seq_toupper o _ Hk). }
    destruct (load_step o st k); [apply IH | reflexivity].
Qed.

(** X6: without [-k] the case of the letters of the sequences does not
    reach the comparison: a sequence is stored as its upper-cased
    version is, and the run on the upper-cased records is the run on the
    records. *)
Theorem case_ignored (o : options) (s : list char)
    (operands : list (list char)) (ks : list kseq_t) :
  keepcase o = false →
  store_seq o (toupper <$> s) = store_seq o s
  ∧ main o operands (holding (upcase <$> ks)) = main o operands (holding ks).
Proof.
  intros Hk. split; [now apply store_seq_toupper|].
  unfold main, main_from, holding.
  destruct operands as [|fasta rest]; [reflexivity|].
  now rewrite (load_upcase o ks _ Hk).
Qed.

Lemma case_ignored_witness :
  store_seq default_options (toupper <$> lit "acgTn")
  = store_seq default_options (lit "acgTn")
  ∧ main default_options [lit "aln.fa"] (holding (upcase <$> two_cases))
    = main default_options [lit "aln.fa"] (holding two_cases).
Proof.
  apply (case_ignored default_options (lit "acgTn") [lit "aln.fa"] two_cases).
  reflexivity.
Defined.

Lemma clean_cleaned (c : char) : cleaned (clean c) = true.
Proof. revert c. apply forall_chars_spec. vm_compute. reflexivity. Qed.

(** X7: without [-a] every byte of a stored sequence is one of A, C,
    G, T and the ignore sentinel, or a NUL past the end of the C string;
    a sequence without NUL is stored without NUL. *)
Theorem store_seq_alphabet (o : options) (s : list char) :
  allchars o = false →
  Forall (fun c => cleaned c = true ∨ c = NUL) (store_seq o s)
  ∧ (Forall (fun c => c ≠ NUL) s →
     Forall (fun c => cleaned c = true) (store_seq o s)).
Proof.
  intros Ha.
  assert (∀ p, Forall (fun c => cleaned c = true) (normalize o p)) as Hn.
  { intros p. unfold normalize. rewrite Ha.
    apply Forall_fmap, Forall_forall. intros c _. apply clean_cleaned. }
  split.
  - unfold store_seq. apply Forall_app. split.
    + eapply Forall_impl; [apply Hn|]. simpl. auto.
    + apply Forall_replicate. now right.
  - intros H. rewrite (store_seq_no_NUL o s H). apply Hn.
Qed.

Lemma store_seq_alphabet_witness :
  Forall (fun c => cleaned c = true ∨ c = NUL)
         (store_seq default_options (lit "acgt-NRY"))
  ∧ (Forall (fun c => c ≠ NUL) (lit "acgt-NRY") →
     Forall (fun c => cleaned c = true)
            (store_seq default_options (lit "acgt-NRY"))).
Proof. apply (store_seq_alphabet default_options). reflexivity. Defined.

(** X8: with [-a] and [-k] a sequence without NUL is stored as it
    is. *)
Theorem store_seq_verbatim (o : options) (s : list char) :
  allchars o = true → keepcase o = true →
  Forall (fun c => c ≠ NUL) s →
  store_seq o s = s.
Proof.
  intros Ha Hk H. rewrite (store_seq_no_NUL o s H).
  unfold normalize. now rewrite Hk, Ha.
Qed.

Lemma store_seq_verbatim_witness :
  store_seq (flags true true) (lit "acgt-NRY") = lit "acgt-NRY".
Proof.
  apply (store_seq_verbatim (flags true true)); [reflexivity..|].
  repeat constructor; discriminate.
Defined.

(** X9: a NUL in a sequence ends what is kept of it: the symbols before
    it are normalised, and it and every symbol after it are stored as
    NUL; the length of the buffer stays that of the sequence. *)
Theorem store_seq_truncates (o : options) (p q : list char) :
  Forall (fun c => c ≠ NUL) p →
  store_seq o (p ++ NUL :: q)
  = normalize o p ++ replicate (S (length q)) NUL
  ∧ length (store_seq o (p ++ NUL :: q)) = length (p ++ NUL :: q).
Proof.
  intros H. split; [|apply store_seq_length].
  unfold store_seq. cbv zeta.
  rewrite (c_str_middle p q H), length_app. cbn [length].
  f_equal. f_equal. lia.
Qed.

Lemma store_seq_truncates_witness :
  store_seq default_options (lit "ac" ++ NUL :: lit "gt")
  = normalize default_options (lit "ac") ++ replicate (S (length (lit "gt"))) NUL
  ∧ length (store_seq default_options (lit "ac" ++ NUL :: lit "gt"))
    = length (lit "ac" ++ NUL :: lit "gt").
Proof.
  apply (store_seq_truncates default_options (lit "ac") (lit "gt")).
  repeat constructor; discriminate.
Defined.

Lemma count_pairs_fmap (p : char → char → bool) (f : char → char)
    (a b : list char) :
  count_pairs p (f <$> a) (f <$> b)
  = count_pairs (fun x y => p (f x) (f y)) a b.
Proof.
  revert b. induction a as [|x a IH]; intros [|y b]; simpl;
    try reflexivity.
  now rewrite IH.
Qed.

Lemma count_pairs_ext (p q : char → char → bool) (a b : list char) :
  (∀ x y, p x y = q x y) → count_pairs p a b = count_pairs q a b.
Proof.
  intros H. revert b. induction a as [|x a IH]; intros [|y b]; simpl;
    try reflexivity.
  now rewrite H, IH.
Qed.

Lemma populated_clean_toupper (x y : char) :
  populated (clean (toupper x)) (clean (toupper y))
  = base_mismatch_nocase x y.
Proof.
  apply Bool.eqb_prop. revert x y. apply forall_chars2_spec.
  vm_compute. reflexivity.
Qed.

(** X10: with the default flags the distance of two records without NUL
    is the number of positions at which both hold one of the letters A,
    C, G, T in either case and the two letters differ apart from
    case. *)
Theorem default_distance_counts_bases (o : options) (a b : list char)
    (L : nat) :
  allchars o = false → keepcase o = false →
  Forall (fun c => c ≠ NUL) a → Forall (fun c => c ≠ NUL) b →
  length a = L → length b = L → Z.of_nat L <= SIZE_MAX →
  distance table (store_seq o a) (store_seq o b) L
  = Some (Z.of_nat (count_pairs base_mismatch_nocase a b)).
Proof.
  intros Ha Hk Hna Hnb Hla Hlb HL.
  rewrite (distance_count (store_seq o a) (store_seq o b) L)
    by (rewrite ?store_seq_length; assumption).
  rewrite (store_seq_no_NUL o a Hna), (store_seq_no_NUL o b Hnb).
  unfold normalize. rewrite Ha, Hk.
  rewrite <- !list_fmap_compose, count_pairs_fmap.
  do 2 f_equal. apply count_pairs_ext. intros x y.
  apply populated_clean_toupper.
Qed.

Lemma default_distance_counts_bases_witness :
  distance table (store_seq default_options (lit "acgtNa-"))
                 (store_seq default_options (lit "ACCAaTg")) 7
  = Some (Z.of_nat (count_pairs base_mismatch_nocase (lit "acgtNa-")
                                (lit "ACCAaTg"))).
Proof.
  apply (default_distance_counts_bases default_options (lit "acgtNa-")
           (lit "ACCAaTg") 7);
    [reflexivity | reflexivity
     | repeat constructor; discriminate
     | repeat constructor; discriminate
     | reflexivity | reflexivity | unfold SIZE_MAX; lia].
Defined.

(** ** Which record stops the loading *)

Lemma load_app (o : options) (ks1 ks2 : list kseq_t) (st : load_state) :
  load o (ks1 ++ ks2) st
  = match load o ks1 st with
    | inl st' => load o ks2 st'
    | inr e => inr e
    end.
Proof.
  revert st. induction ks1 as [|k ks1 IH]; intros st; simpl.
  - reflexivity.
  - destruct (load_step o st k) as [st'|e]; [apply IH | reflexivity].
Qed.

(** The state after a prefix of records of one length. *)
Lemma load_prefix (o : options) (pre : list kseq_t) (L : Z) :
  pre ≠ [] →
  Forall (fun k => kseq_len k = L) pre →
  Z.of_nat (length pre) <= MAX_SEQ →
  load o pre load_init
  = inl {| st_seq := stored_seqs o pre;
           st_name := stored_names pre;
           st_N := Z.of_nat (length pre);
           st_L := L |}.
Proof.
  intros Hne Hall Hmax.
  destruct pre as [|k0 pre]; [congruence|].
  assert (alignment (k0 :: pre) = true) as Hal.
  { unfold alignment. rewrite !andb_true_iff. repeat split.
    - apply Z.leb_le. simpl length. lia.
    - now apply Z.leb_le.
    - simpl. apply forallb_forall. intros k Hk. apply Z.eqb_eq.
      apply Forall_cons in Hall as [H0 Hall]. rewrite H0.
      rewrite Forall_forall in Hall. apply Hall.
      now apply list_elem_of_In. }
  destruct (load_alignment o (k0 :: pre) Hal) as (L' & -> & HL').
  apply Forall_cons in Hall as [H0 _].
  apply Forall_cons in HL' as [H0' _].
  unfold kseq_len in H0. rewrite H0' in H0. now rewrite H0.
Qed.

(** X11: the first record whose length differs from that of the first
    record ends the run with [EXIT_FAILURE]; the message gives its
    number counted from 1, its name, its length and the expected
    length.  This holds up to record [MAX_SEQ + 1], the length being
    checked before the capacity. *)
Theorem first_mismatch_reported (o : options) (fasta : list char)
    (rest : list (list char)) (gzopen : list char → option (list kseq_t))
    (pre : list kseq_t) (k : kseq_t) (post : list kseq_t) (L : Z) :
  gzopen fasta = Some (pre ++ k :: post) →
  pre ≠ [] →
  Forall (fun k' => kseq_len k' = L) pre →
  Z.of_nat (length pre) <= MAX_SEQ →
  kseq_len k ≠ L →
  main o (fasta :: rest) gzopen
  = Some {| status := EXIT_FAILURE;
            stdout := [];
            stderr := say o Hello
                        ++ [ErrLength (Z.of_nat (length pre) + 1)
                                      (c_str (kname k)) (kseq_len k) L] |}.
Proof.
  intros Hopen Hne Hall Hmax Hk.
  unfold main, main_from. rewrite Hopen, load_app.
  rewrite (load_prefix o pre L Hne Hall Hmax).
  simpl load. unfold load_step. simpl st_L. simpl st_N.
  assert (0 <= L) as HL0.
  { destruct pre as [|k0 pre]; [congruence|].
    apply Forall_cons in Hall as [H0 _]. unfold kseq_len in H0. lia. }
  destruct (Z.ltb_spec L 0) as [?|_]; [lia|].
  destruct (Z.eqb_spec (kseq_len k) L) as [?|_]; [contradiction|].
  reflexivity.
Qed.

Lemma first_mismatch_reported_witness :
  main (flags false false) [lit "aln.fa"] (holding ragged)
  = Some {| status := EXIT_FAILURE;
            stdout := [];
            stderr := say (flags false false) Hello
                        ++ [ErrLength (Z.of_nat (length [record "S1" "ACGT"]) + 1)
                                      (c_str (kname (record "S2" "ACG")))
                                      (kseq_len (record "S2" "ACG")) 4] |}.
Proof.
  apply (first_mismatch_reported (flags false false) (lit "aln.fa") []
           (holding ragged) [record "S1" "ACGT"] (record "S2" "ACG") [] 4).
  - reflexivity.
  - discriminate.
  - repeat constructor.
  - unfold MAX_SEQ. simpl. lia.
  - discriminate.
Defined.

(** X12: [MAX_SEQ] records of one length are all loaded; one more
    record of that length ends the run with [EXIT_FAILURE] and the
    message that names [MAX_SEQ]. *)
Theorem capacity_reported (o : options) (fasta : list char)
    (rest : list (list char)) (gzopen : list char → option (list kseq_t))
    (pre : list kseq_t) (k : kseq_t) (post : list kseq_t) (L : Z) :
  gzopen fasta = Some (pre ++ k :: post) →
  Forall (fun k' => kseq_len k' = L) pre →
  Z.of_nat (length pre) = MAX_SEQ →
  kseq_len k = L →
  (∃ st, load o pre load_init = inl st ∧ st_N st = MAX_SEQ
         ∧ st_seq st = stored_seqs o pre)
  ∧ main o (fasta :: rest) gzopen
    = Some {| status := EXIT_FAILURE;
              stdout := [];
              stderr := say o Hello ++ [ErrTooMany MAX_SEQ] |}.
Proof.
  intros Hopen Hall Hlen Hk.
  assert (pre ≠ []) as Hne.
  { intros ->. simpl in Hlen. unfold MAX_SEQ in Hlen. lia. }
  pose proof (load_prefix o pre L Hne Hall ltac:(lia)) as Hpre.
  split.
  - eexists. split; [exact Hpre|]. simpl. auto.
  - unfold main, main_from. rewrite Hopen, load_app, Hpre.
    simpl load. unfold load_step. simpl st_L. simpl st_N.
    assert (0 <= L) as HL0 by (unfold kseq_len in Hk; lia).
    destruct (Z.ltb_spec L 0) as [?|_]; [lia|].
    rewrite Hk, Z.eqb_refl. simpl negb. cbv iota.
    destruct (Z.leb_spec MAX_SEQ (Z.of_nat (length pre))) as [_|?]; [|lia].
    reflexivity.
Qed.

Lemma capacity_reported_witness :
  main (flags false false) [lit "aln.fa"]
       (holding (full_house ++ [record "S" "A"]))
  = Some {| status := EXIT_FAILURE;
            stdout := [];
            stderr := say (flags false false) Hello ++ [ErrTooMany MAX_SEQ] |}.
Proof.
  apply (capacity_reported (flags false false) (lit "aln.fa") []
           (holding (full_house ++ [record "S" "A"]))
           full_house (record "S" "A") [] 1).
  - reflexivity.
  - apply Forall_replicate. reflexivity.
  - unfold full_house. rewrite length_replicate. apply Z2Nat.id.
    unfold MAX_SEQ. lia.
  - reflexivity.
Defined.

(** ** The exit status *)

(** X13: every run of [main] ends without reading outside a buffer.
    Its status is 0 exactly when a file name is given, the file opens
    and holds between 1 and [MAX_SEQ] records of one length; otherwise
    the status is [EXIT_FAILURE] and nothing is printed on the standard
    output. *)
Theorem exit_status_zero_iff (o : options) (operands : list (list char))
    (gzopen : list char → option (list kseq_t)) :
  ∃ r, main o operands gzopen = Some r
       ∧ (status r = 0
          ↔ ∃ fasta rest ks, operands = fasta :: rest
                             ∧ gzopen fasta = Some ks
                             ∧ alignment ks = true)
       ∧ (status r ≠ 0 → status r = EXIT_FAILURE ∧ stdout r = []).
Proof.
  unfold main.
  destruct operands as [|fasta rest].
  { eexists. split; [reflexivity|]. simpl. split; [|auto].
    split; [discriminate|]. intros (f & r & ks & H & _). discriminate. }
  destruct (gzopen fasta) as [ks|] eqn:Hopen.
  - destruct (alignment ks) eqn:Hal.
    + destruct (main_from_alignment (init_table zero_table) o fasta rest
                  gzopen ks Hopen Hal) as (L & _ & ->).
      eexists. split; [reflexivity|]. simpl. split.
      * split; [|reflexivity]. intros _. exists fasta, rest, ks. auto.
      * intros H. now destruct H.
    + assert (∃ err, main_from (init_table zero_table) o (fasta :: rest)
                       gzopen
                     = Some {| status := EXIT_FAILURE; stdout := [];
                               stderr := err |}) as [err ->].
      { unfold main_from. rewrite Hopen.
        destruct (load o ks load_init) as [st'|e] eqn:E; [|eauto].
        destruct (Z.ltb_spec (st_N st') 1) as [Hlt|Hge]; [eauto|].
        rewrite (load_inl_alignment o ks st' E Hge) in Hal. discriminate. }
      eexists. split; [reflexivity|]. simpl. split; [|auto].
      split; [discriminate|].
      intros (f & r & ks' & Hop & Hopen' & Hal').
      injection Hop as <- <-. congruence.
  - unfold main_from. rewrite Hopen.
    eexists. split; [reflexivity|]. simpl. split; [|auto].
    split; [discriminate|].
    intros (f & r & ks' & Hop & Hopen' & _).
    injection Hop as <- <-. congruence.
Qed.

(** ** The quiet flag *)

Lemma load_set_quiet (q : bool) (o : options) (ks : list kseq_t)
    (st : load_state) :
  load (set_quiet q o) ks st = load o ks st.
Proof.
  revert st. induction ks as [|k ks IH]; intros st; simpl.
  - reflexivity.
  - change (load_step (set_quiet q o) st k) with (load_step o st k).
    destruct (load_step o st k); [apply IH | reflexivity].
Qed.

Lemma load_error (o : options) (ks : list kseq_t) (st : load_state)
    (e : diag) :
  load o ks st = inr e → is_error e = true.
Proof.
  revert st. induction ks as [|k ks IH]; intros st; simpl.
  - discriminate.
  - destruct (load_step o st k) as [st'|e'] eqn:E.
    + apply IH.
    + intros H. injection H as <-. unfold load_step in E.
      destruct (negb _); [injection E as <-; reflexivity|].
      destruct (_ <=? _); [injection E as <-; reflexivity|discriminate].
Qed.

(** X14: [-q] changes neither the exit status nor the standard output
    of a run; of the diagnostic stream it leaves the messages that
    report a failure and removes the others. *)
Theorem quiet_only_silences (o : options) (operands : list (list char))
    (gzopen : list char → option (list kseq_t)) :
  ∃ r rq,
    main o operands gzopen = Some r
    ∧ main (set_quiet true o) operands gzopen = Some rq
    ∧ status rq = status r
    ∧ stdout rq = stdout r
    ∧ stderr rq = List.filter is_error (stderr r).
Proof.
  unfold main.
  destruct operands as [|fasta rest].
  { eexists _, _. repeat split. }
  destruct (gzopen fasta) as [ks|] eqn:Hopen.
  - destruct (load o ks load_init) as [st'|e] eqn:E.
    + destruct (Z.ltb_spec (st_N st') 1) as [Hlt|Hge].
      * apply Z.ltb_lt in Hlt. unfold main_from.
        rewrite Hopen, load_set_quiet, E, Hlt.
        eexists _, _. repeat split. simpl. unfold say.
        now destruct (quiet o).
      * pose proof (load_inl_alignment o ks st' E Hge) as Hal.
        destruct (main_from_alignment (init_table zero_table) o fasta rest
                    gzopen ks Hopen Hal) as (L & _ & ->).
        destruct (main_from_alignment (init_table zero_table)
                    (set_quiet true o) fasta rest gzopen ks Hopen Hal)
          as (L' & _ & ->).
        eexists _, _. repeat split. simpl. unfold say.
        now destruct (quiet o).
    + unfold main_from. rewrite Hopen, load_set_quiet, E.
      eexists _, _. repeat split. simpl. unfold say.
      rewrite List.filter_app. simpl. rewrite (load_error o ks _ e E).
      now destruct (quiet o).
  - unfold main_from. rewrite Hopen.
    eexists _, _. repeat split. simpl. unfold say.
    now destruct (quiet o).
Qed.

(** ** The option loop *)

Lemma flag_letter_cases (c : char) :
  flag_letter c = true →
  c = "q"%char ∨ c = "c"%char ∨ c = "a"%char ∨ c = "k"%char ∨ c = "b"%char.
Proof.
  unfold flag_letter. rewrite !orb_true_iff, !Ascii.eqb_eq. tauto.
Qed.

(** Deciding the comparisons of two given characters. *)
Ltac decide_chars :=
  repeat match goal with
         | |- context [Ascii.eqb ?a ?b] =>
             let v := eval vm_compute in (Ascii.eqb a b) in
             change (Ascii.eqb a b) with v
         end.

Lemma getopt_cases (c : char) :
  existsb (Ascii.eqb c) OPTSTRING
  = flag_letter c || Ascii.eqb c "h" || Ascii.eqb c "v".
Proof.
  apply Bool.eqb_prop. revert c. apply forall_chars_spec.
  vm_compute. reflexivity.
Qed.

Lemma getopt_flag_letter (c : char) :
  flag_letter c = true → getopt c = (c, []).
Proof. intros H. unfold getopt. now rewrite getopt_cases, H. Qed.

Lemma option_loop_flags_from (opts : list char) (o : options) :
  forallb flag_letter opts = true →
  option_loop opts o
  = inl {| quiet := quiet o || existsb (Ascii.eqb "q") opts;
           csv := csv o || existsb (Ascii.eqb "c") opts;
           corner := corner o && negb (existsb (Ascii.eqb "b") opts);
           allchars := allchars o || existsb (Ascii.eqb "a") opts;
           keepcase := keepcase o || existsb (Ascii.eqb "k") opts |}.
Proof.
  revert o. induction opts as [|c opts IH]; intros o H.
  - simpl. rewrite !orb_false_r, andb_true_r. now destruct o.
  - cbn [forallb] in H. apply andb_prop in H as [Hc H].
    cbn [option_loop]. rewrite (getopt_flag_letter c Hc).
    apply flag_letter_cases in Hc.
    destruct Hc as [-> | [-> | [-> | [-> | ->]]]];
      cbn [existsb]; unfold option_step; decide_chars;
      cbv iota; rewrite (IH _ H);
      cbn [quiet csv corner allchars keepcase orb];
      f_equal; f_equal;
      destruct (quiet o), (csv o), (corner o), (allchars o), (keepcase o);
      reflexivity.
Qed.

(** X15: options made of the letters q, c, a, k, b only set the flags
    of the letters that occur, whatever their order and number: the
    loop ends with [quiet], [csv], [allchars], [keepcase] set exactly
    for the letters seen and [corner] cleared exactly when b is seen,
    and the run goes on under these flags. *)
Theorem option_loop_flags (opts : list char) :
  forallb flag_letter opts = true →
  let o := {| quiet := existsb (Ascii.eqb "q") opts;
              csv := existsb (Ascii.eqb "c") opts;
              corner := negb (existsb (Ascii.eqb "b") opts);
              allchars := existsb (Ascii.eqb "a") opts;
              keepcase := existsb (Ascii.eqb "k") opts |} in
  option_loop opts default_options = inl o
  ∧ ∀ operands gzopen,
      main_args opts operands gzopen = main o operands gzopen.
Proof.
  intros H o.
  assert (option_loop opts default_options = inl o) as E
      by now rewrite (option_loop_flags_from opts _ H).
  split; [exact E|]. intros operands gzopen. unfold main_args.
  now rewrite E.
Qed.

Lemma option_loop_flags_witness :
  let o := {| quiet := existsb (Ascii.eqb "q") (lit "kqk");
              csv := existsb (Ascii.eqb "c") (lit "kqk");
              corner := negb (existsb (Ascii.eqb "b") (lit "kqk"));
              allchars := existsb (Ascii.eqb "a") (lit "kqk");
              keepcase := existsb (Ascii.eqb "k") (lit "kqk") |} in
  option_loop (lit "kqk") default_options = inl o
  ∧ ∀ operands gzopen,
      main_args (lit "kqk") operands gzopen = main o operands gzopen.
Proof. apply (option_loop_flags (lit "kqk")). reflexivity. Defined.

Lemma option_loop_app (pre post : list char) (o : options) :
  option_loop (pre ++ post) o
  = match option_loop pre o with
    | inl o' => option_loop post o'
    | inr r => inr r
    end.
Proof.
  revert o. induction pre as [|c pre IH]; intros o; simpl.
  - reflexivity.
  - destruct (getopt c) as [opt err].
    destruct (option_step o opt) as [o'|r]; [apply IH | reflexivity].
Qed.

Lemma option_loop_stop (o : options) (c : char) (post : list char) :
  flag_letter c = false →
  option_loop (c :: post) o
  = inr (if Ascii.eqb c "h" then
           {| status := 0; stdout := help_text; stderr := [] |}
         else if Ascii.eqb c "v" then
           {| status := 0;
              stdout := [Str EXENAME; Chr " "; Str VERSION; Chr newline];
              stderr := [] |}
         else
           {| status := EXIT_FAILURE; stdout := [];
              stderr := [InvalidOption c; Usage] |}).
Proof.
  intros Hc. cbn [option_loop]. unfold getopt.
  rewrite getopt_cases, Hc. cbn [orb].
  destruct (Ascii.eqb_spec c "h") as [->|Hh]; [reflexivity|].
  destruct (Ascii.eqb_spec c "v") as [->|Hv]; reflexivity.
Qed.

(** X16: the first option character that is not one of q, c, a, k, b
    ends the run before the file name is looked at: [-h] prints the help
    on the standard output and [-v] the name and version, both with
    status 0 and nothing on the diagnostic stream; for any other
    character [getopt] writes its message on the diagnostic stream, the
    help follows it there, nothing is printed on the standard output
    and the status is [EXIT_FAILURE]. *)
Theorem first_other_option_ends_run (pre : list char) (c : char)
    (post : list char) (operands : list (list char))
    (gzopen : list char → option (list kseq_t)) :
  forallb flag_letter pre = true → flag_letter c = false →
  main_args (pre ++ c :: post) operands gzopen
  = Some (if Ascii.eqb c "h" then
            {| status := 0; stdout := help_text; stderr := [] |}
          else if Ascii.eqb c "v" then
            {| status := 0;
               stdout := [Str EXENAME; Chr " "; Str VERSION; Chr newline];
               stderr := [] |}
          else
            {| status := EXIT_FAILURE; stdout := [];
               stderr := [InvalidOption c; Usage] |}).
Proof.
  intros Hpre Hc. unfold main_args.
  rewrite option_loop_app, (option_loop_flags_from pre _ Hpre).
  now rewrite (option_loop_stop _ c post Hc).
Qed.

Lemma first_other_option_ends_run_witness :
  main_args (lit "q" ++ "x"%char :: lit "k") [] unreadable
  = Some (if Ascii.eqb "x" "h" then
            {| status := 0; stdout := help_text; stderr := [] |}
          else if Ascii.eqb "x" "v" then
            {| status := 0;
               stdout := [Str EXENAME; Chr " "; Str VERSION; Chr newline];
               stderr := [] |}
          else
            {| status := EXIT_FAILURE; stdout := [];
               stderr := [InvalidOption "x"; Usage] |}).
Proof.
  apply (first_other_option_ends_run (lit "q") "x" (lit "k") [] unreadable);
    reflexivity.
Defined.

(** ** The shape of the output *)

Lemma count_tokens_app (p : token → bool) (l1 l2 : list token) :
  count_tokens p (l1 ++ l2) = (count_tokens p l1 + count_tokens p l2)%nat.
Proof. unfold count_tokens. now rewrite List.filter_app, length_app. Qed.

Lemma count_tokens_concat (p : token → bool) (ls : list (list token))
    (c : nat) :
  Forall (fun l => count_tokens p l = c) ls →
  count_tokens p (concat ls) = (c * length ls)%nat.
Proof.
  induction 1 as [|l ls Hl _ IH]; simpl.
  - unfold count_tokens. simpl. lia.
  - rewrite count_tokens_app, Hl, IH. lia.
Qed.

Lemma sep_not_newline (o : options) : Ascii.eqb (sep o) newline = false.
Proof. unfold sep. now destruct (csv o). Qed.

Lemma header_line_counts (o : options) (names : list (list char)) :
  count_tokens is_newline (header_line o names) = 1%nat
  ∧ count_tokens is_num (header_line o names) = 0%nat.
Proof.
  unfold header_line.
  assert (∀ p, p (Chr (sep o)) = false → (∀ s, p (Str s) = false) →
               count_tokens p
                 (concat ((fun nj => [Chr (sep o); Str nj]) <$> names))
               = 0%nat) as Hcols.
  { intros p Hsep Hstr.
    rewrite (count_tokens_concat p _ 0); [lia|].
    apply Forall_fmap, Forall_forall. intros nj _. simpl.
    unfold count_tokens. simpl. now rewrite Hsep, Hstr. }
  split; rewrite !count_tokens_app, Hcols;
    try (simpl; apply sep_not_newline); try reflexivity;
    destruct (corner o); reflexivity.
Qed.

Lemma row_line_counts (o : options) (nj : list char) (row : list Z) :
  count_tokens is_newline (row_line o nj row) = 1%nat
  ∧ count_tokens is_num (row_line o nj row) = length row.
Proof.
  unfold row_line. change (Str nj :: ?l) with ([Str nj] ++ l).
  split; rewrite !count_tokens_app.
  - rewrite (count_tokens_concat is_newline _ 0).
    + unfold count_tokens. simpl. lia.
    + apply Forall_fmap, Forall_forall. intros d _. simpl.
      unfold count_tokens. simpl. now rewrite sep_not_newline.
  - rewrite (count_tokens_concat is_num _ 1).
    + rewrite length_fmap. unfold count_tokens. simpl. lia.
    + apply Forall_fmap, Forall_forall. intros d _. reflexivity.
Qed.

Lemma Forall_zip_with_r {A B C : Type} (f : A → B → C)
    (P : B → Prop) (Q : C → Prop) (la : list A) (lb : list B) :
  (∀ x y, P y → Q (f x y)) → Forall P lb → Forall Q (zip_with f la lb).
Proof.
  intros Hf Hb. revert la.
  induction Hb as [|y lb Hy _ IH]; intros [|x la]; simpl; constructor; auto.
Qed.

Lemma render_counts (o : options) (names : list (list char))
    (m : list (list Z)) (n : nat) :
  length names = n → length m = n →
  Forall (fun row => length row = n) m →
  count_tokens is_newline (render o names m) = S n
  ∧ count_tokens is_num (render o names m) = (n * n)%nat.
Proof.
  intros Hn Hm Hrows. unfold render.
  destruct (header_line_counts o names) as [Hh1 Hh2].
  assert (length (zip_with (row_line o) names m) = n) as Hlen
      by (rewrite length_zip_with; lia).
  split; rewrite count_tokens_app.
  - rewrite Hh1, (count_tokens_concat is_newline _ 1), Hlen; [lia|].
    apply (Forall_zip_with_r _ (fun _ => True)).
    + intros x y _. apply row_line_counts.
    + apply Forall_forall. auto.
  - rewrite Hh2, (count_tokens_concat is_num _ n), Hlen; [lia|].
    apply (Forall_zip_with_r _ (fun row => length row = n)); [|exact Hrows].
    intros x y Hy. now rewrite (proj2 (row_line_counts o x y)).
Qed.

(** X17: for [N] accepted records the standard output holds [N + 1]
    line ends, those of the header and of one row for each record, and
    [N * N] numbers. *)
Theorem output_shape (o : options) (fasta : list char)
    (rest : list (list char)) (gzopen : list char → option (list kseq_t))
    (ks : list kseq_t) :
  gzopen fasta = Some ks → alignment ks = true →
  ∃ r, main o (fasta :: rest) gzopen = Some r
       ∧ status r = 0
       ∧ count_tokens is_newline (stdout r) = S (length ks)
       ∧ count_tokens is_num (stdout r) = (length ks * length ks)%nat.
Proof.
  intros Hopen Hal. unfold main.
  destruct (main_from_alignment (init_table zero_table) o fasta rest
              gzopen ks Hopen Hal) as (L & _ & ->).
  eexists. split; [reflexivity|]. split; [reflexivity|]. simpl.
  apply render_counts.
  - unfold stored_names. apply length_fmap.
  - rewrite matrix_of_length. unfold stored_seqs. apply length_fmap.
  - unfold matrix_of. apply Forall_fmap, Forall_forall. intros sj _.
    simpl. rewrite length_fmap. unfold stored_seqs. apply length_fmap.
Qed.

Lemma output_shape_witness :
  ∃ r, main default_options [lit "aln.fa"] (holding three_records) = Some r
       ∧ status r = 0
       ∧ count_tokens is_newline (stdout r) = S (length three_records)
       ∧ count_tokens is_num (stdout r)
         = (length three_records * length three_records)%nat.
Proof.
  apply (output_shape default_options (lit "aln.fa") []
           (holding three_records) three_records); reflexivity.
Defined.

(** ** The numbers printed *)

Lemma numbers_app (l1 l2 : list token) :
  numbers (l1 ++ l2) = numbers l1 ++ numbers l2.
Proof.
  induction l1 as [|tk l1 IH]; simpl; [reflexivity|].
  destruct tk; simpl; now rewrite IH.
Qed.

Lemma numbers_header_line (o : options) (names : list (list char)) :
  numbers (header_line o names) = [].
Proof.
  unfold header_line. rewrite !numbers_app.
  assert (numbers (concat ((fun nj => [Chr (sep o); Str nj]) <$> names)) = [])
    as ->.
  { induction names as [|nj names IH]; simpl; [reflexivity|exact IH]. }
  now destruct (corner o).
Qed.

Lemma numbers_cells (c : char) (row : list Z) :
  numbers (concat ((fun d => [Chr c; Num d]) <$> row)) = row.
Proof.
  induction row as [|d row IH]; [reflexivity|].
  rewrite fmap_cons. cbn [concat app numbers]. now rewrite IH.
Qed.

Lemma numbers_row_line (o : options) (nj : list char) (row : list Z) :
  numbers (row_line o nj row) = row.
Proof.
  unfold row_line. cbn [numbers].
  rewrite numbers_app, numbers_cells. cbn [numbers]. apply app_nil_r.
Qed.

Lemma numbers_rows (o : options) (names : list (list char))
    (m : list (list Z)) :
  length names = length m →
  numbers (concat (zip_with (row_line o) names m)) = concat m.
Proof.
  revert m. induction names as [|nj names IH]; intros [|row m] H;
    simpl in H; try discriminate; [reflexivity|].
  cbn [zip_with concat].
  rewrite numbers_app, numbers_row_line, IH by congruence. reflexivity.
Qed.

(** X18: the numbers a successful run on [N] records prints are, read
    in order, the [N] rows of [N] numbers each of the matrix whose entry
    [(i, j)] is the result of [distance] on the stored sequences of
    records [i] and [j] over their full length, whatever [-q], [-c] and
    [-b] are. *)
Theorem printed_numbers (o : options) (fasta : list char)
    (rest : list (list char)) (gzopen : list char → option (list kseq_t))
    (ks : list kseq_t) :
  gzopen fasta = Some ks → alignment ks = true →
  ∃ r m,
    main o (fasta :: rest) gzopen = Some r
    ∧ numbers (stdout r) = concat m
    ∧ length m = length ks
    ∧ Forall (fun row => length row = length ks) m
    ∧ ∀ i j ki kj,
        ks !! i = Some ki → ks !! j = Some kj →
        length (kseq kj) = length (kseq ki)
        ∧ ∃ d, distance table (store_seq o (kseq ki)) (store_seq o (kseq kj))
                        (length (kseq ki)) = Some d
               ∧ entry m i j = Some d.
Proof.
  intros Hopen Hal. unfold main.
  destruct (main_from_alignment (init_table zero_table) o fasta rest
              gzopen ks Hopen Hal) as (L & Hst & ->).
  eexists _, (matrix_of table (stored_seqs o ks)).
  split; [reflexivity|]. simpl. split; [|split; [|split]].
  - unfold render. rewrite numbers_app, numbers_header_line. simpl.
    apply numbers_rows. rewrite matrix_of_length.
    unfold stored_names, stored_seqs. now rewrite !length_fmap.
  - rewrite matrix_of_length. unfold stored_seqs. apply length_fmap.
  - unfold matrix_of. apply Forall_fmap, Forall_forall. intros sj _.
    simpl. rewrite length_fmap. unfold stored_seqs. apply length_fmap.
  - intros i j ki kj Hi Hj.
    assert (stored_seqs o ks !! i = Some (store_seq o (kseq ki))) as Hsi
        by (unfold stored_seqs; now rewrite list_lookup_fmap, Hi).
    assert (stored_seqs o ks !! j = Some (store_seq o (kseq kj))) as Hsj
        by (unfold stored_seqs; now rewrite list_lookup_fmap, Hj).
    assert (length (kseq ki) = L) as HLi.
    { rewrite <- (store_seq_length o). eapply Forall_lookup_1 in Hst; eauto. }
    assert (length (kseq kj) = L) as HLj.
    { rewrite <- (store_seq_length o). eapply Forall_lookup_1 in Hst; eauto. }
    split; [congruence|].
    destruct (matrix_of_entry table _ L i j _ _ Hst Hsi Hsj) as [E D].
    rewrite HLi. eauto.
Qed.

Lemma printed_numbers_witness :
  ∃ r m,
    main (flags false true) [lit "aln.fa"] (holding three_records) = Some r
    ∧ numbers (stdout r) = concat m
    ∧ length m = length three_records
    ∧ Forall (fun row => length row = length three_records) m
    ∧ ∀ i j ki kj,
        three_records !! i = Some ki → three_records !! j = Some kj →
        length (kseq kj) = length (kseq ki)
        ∧ ∃ d, distance table (store_seq (flags false true) (kseq ki))
                        (store_seq (flags false true) (kseq kj))
                        (length (kseq ki)) = Some d
               ∧ entry m i j = Some d.
Proof.
  apply (printed_numbers (flags false true) (lit "aln.fa") []
           (holding three_records) three_records); reflexivity.
Defined.
